(** * subscribe-easy: the subscription lifecycle, embedded and verified

    The TypeScript source defines two classes.  [Subscribe] holds static
    adapters that turn a registration (emitter listener, DOM listener, timer)
    into a zero-argument [Unsubscribe] function, plus [unsubAll] and
    [createCleanup].  [Subs] keeps an array of [Unsubscribe] functions,
    offers the same registrations as methods that also push the result, and
    [unsubAll] that calls them all and empties the array in place.

    JavaScript function values have identity and are called for their
    effects; arrays are shared mutable objects.  The embedding therefore
    works over an explicit store, written in a small monad with exceptions
    and divergence. *)

From Stdlib Require Import List String ZArith Lia PeanoNat Bool Permutation.
Import ListNotations.
Open Scope string_scope.
Open Scope list_scope.
Set Warnings "-register-all".

(** ** Values and function objects *)

(** JavaScript values that travel through the library untouched: thrown
    values, timer arguments. *)
Inductive Value : Type :=
  | VUndefined
  | VBool (b : bool)
  | VNum (z : Z)
  | VStr (s : string)
  | VArr (vs : list Value).

(** [boolean | AddEventListenerOptions]; [undefined] is [None] at use sites. *)
Inductive ListenerOptions : Type :=
  | OptBool (capture : bool)
  | OptObj (capture once passive : bool).

(** The code of every closure the library can hold in an array.  The first
    seven are the arrow functions written in the source, with the variables
    they capture; [CUser] is a function supplied by the caller, named by its
    index in the caller's table.  A function object [Closure id c] carries the
    identity it got when the arrow function was evaluated. *)
Inductive Code : Type :=
  | CNoop
  | CRemoveListener (eventEmitter : nat) (eventName : string) (listener : nat)
  | CRemoveEventListener (domObj : nat) (eventName : string) (listener : nat)
                         (options : option ListenerOptions)
  | CClearTimeout (timeout : nat)
  | CClearInterval (interval : nat)
  | CUnsubAll (unsubs : Unsubs)
  | CSubsUnsubAll (this : nat)
  | CUser (u : nat)
with Fn : Type :=
  | Closure (id : nat) (c : Code)
with Unsubs : Type :=
  | One (f : Fn)
  | Many (arr : nat).

Definition fid (f : Fn) : nat := match f with Closure id _ => id end.
Definition code (f : Fn) : Code := match f with Closure _ c => c end.

(** ** The store *)

Record DomListener : Type := mkDomListener {
  ltype : string;
  lcallback : nat;
  lcapture : bool;
  lonce : bool;
  lpassive : bool
}.

Record Timer : Type := mkTimer {
  tid : nat;
  thandler : nat;
  tdelay : Z;
  targs : list Value;
  trepeat : bool
}.

(** Arrays of [Unsubscribe] live at addresses; a [Subs] object is an address
    whose [list] field holds the address of its array.  Emitters, DOM targets
    and the timer facility are the host's; the store keeps what the library's
    calls leave in them.  [userdata] is the caller's own data, which only the
    caller's functions touch. *)
Record Mem : Type := mkMem {
  arrays : nat -> list Fn;
  next_array : nat;
  subs_list : nat -> nat;
  next_subs : nat;
  next_fn : nat;
  emitters : nat -> list (string * nat);
  targets : nat -> list DomListener;
  timers : list Timer;
  next_timer : nat;
  userdata : list Value
}.

Definition upd {A : Type} (f : nat -> A) (k : nat) (v : A) : nat -> A :=
  fun k' => if Nat.eqb k' k then v else f k'.

Definition set_array (l : nat) (v : list Fn) (m : Mem) : Mem :=
  mkMem (upd (arrays m) l v) (next_array m) (subs_list m) (next_subs m)
        (next_fn m) (emitters m) (targets m) (timers m) (next_timer m) (userdata m).

Definition set_next_fn (n : nat) (m : Mem) : Mem :=
  mkMem (arrays m) (next_array m) (subs_list m) (next_subs m)
        n (emitters m) (targets m) (timers m) (next_timer m) (userdata m).

Definition set_emitter (e : nat) (v : list (string * nat)) (m : Mem) : Mem :=
  mkMem (arrays m) (next_array m) (subs_list m) (next_subs m)
        (next_fn m) (upd (emitters m) e v) (targets m) (timers m) (next_timer m)
        (userdata m).

Definition set_target (d : nat) (v : list DomListener) (m : Mem) : Mem :=
  mkMem (arrays m) (next_array m) (subs_list m) (next_subs m)
        (next_fn m) (emitters m) (upd (targets m) d v) (timers m) (next_timer m)
        (userdata m).

Definition set_timers (ts : list Timer) (nt : nat) (m : Mem) : Mem :=
  mkMem (arrays m) (next_array m) (subs_list m) (next_subs m)
        (next_fn m) (emitters m) (targets m) ts nt (userdata m).

Definition new_array (v : list Fn) (m : Mem) : nat * Mem :=
  (next_array m,
   mkMem (upd (arrays m) (next_array m) v) (S (next_array m)) (subs_list m)
         (next_subs m) (next_fn m) (emitters m) (targets m) (timers m)
         (next_timer m) (userdata m)).

Definition new_subs (l : nat) (m : Mem) : nat * Mem :=
  (next_subs m,
   mkMem (arrays m) (next_array m) (upd (subs_list m) (next_subs m) l)
         (S (next_subs m)) (next_fn m) (emitters m) (targets m) (timers m)
         (next_timer m) (userdata m)).

(** What the library itself did, in order: each call it made to an
    [Unsubscribe] function, with what happened inside that call and the value
    it raised if it raised, and each [console.error]. *)
Inductive Event : Type :=
  | Invoked (f : Fn) (inner : list Event) (raised : option Value)
  | Logged (e : Value).

Record World : Type := mkWorld {
  mem : Mem;
  trace : list Event
}.

Definition with_mem (m : Mem) (w : World) : World := mkWorld m (trace w).
Definition emit (ev : Event) (w : World) : World :=
  mkWorld (mem w) (trace w ++ [ev]).

(** ** Computations: state, exceptions, divergence *)

Inductive Completion (A : Type) : Type :=
  | Return (a : A)
  | Throw (e : Value).
Arguments Return {A} a.
Arguments Throw {A} e.

Inductive Result (A : Type) : Type :=
  | Done (c : Completion A) (w : World)
  | Diverge.
Arguments Done {A} c w.
Arguments Diverge {A}.

Definition M (A : Type) : Type := World -> Result A.

Definition ret {A : Type} (a : A) : M A := fun w => Done (Return a) w.

Definition throw {A : Type} (e : Value) : M A := fun w => Done (Throw e) w.

Definition diverge {A : Type} : M A := fun _ => Diverge.

Definition bind {A B : Type} (m : M A) (k : A -> M B) : M B :=
  fun w =>
    match m w with
    | Done (Return a) w1 => k a w1
    | Done (Throw e) w1 => Done (Throw e) w1
    | Diverge => Diverge
    end.

(** [try { body } catch (e) { handler }] *)
Definition try_catch {A : Type} (body : M A) (handler : Value -> M A) : M A :=
  fun w =>
    match body w with
    | Done (Throw e) w1 => handler e w1
    | r => r
    end.

Declare Scope js_scope.
Delimit Scope js_scope with js.
Notation "x <- m ;; k" := (bind m (fun x => k))
  (at level 61, m at next level, right associativity) : js_scope.
Notation "m ;; k" := (bind m (fun _ => k))
  (at level 61, right associativity) : js_scope.
Open Scope js_scope.

Definition read {A : Type} (f : Mem -> A) : M A :=
  fun w => Done (Return (f (mem w))) w.

Definition modify (f : Mem -> Mem) : M unit :=
  fun w => Done (Return tt) (with_mem (f (mem w)) w).

(** Evaluating an arrow function: a new function object. *)
Definition closure (c : Code) : M Fn :=
  fun w =>
    Done (Return (Closure (next_fn (mem w)) c))
         (with_mem (set_next_fn (S (next_fn (mem w))) (mem w)) w).

(** [console.error(e)] *)
Definition console_error (e : Value) : M unit :=
  fun w => Done (Return tt) (emit (Logged e) w).

(** ** The host: emitters, DOM targets, timers *)

(** Node's [EventEmitter]: [addListener] appends, duplicates allowed;
    [removeListener] removes the most recently added matching entry. *)
Definition same_listener (eventName : string) (listener : nat)
    (p : string * nat) : bool :=
  String.eqb (fst p) eventName && Nat.eqb (snd p) listener.

Fixpoint remove_first {A : Type} (p : A -> bool) (l : list A) : list A :=
  match l with
  | [] => []
  | x :: l' => if p x then l' else x :: remove_first p l'
  end.

Definition addListener (eventEmitter : nat) (eventName : string)
    (listener : nat) : M unit :=
  modify (fun m =>
    set_emitter eventEmitter
      (emitters m eventEmitter ++ [(eventName, listener)]) m).

Definition removeListener (eventEmitter : nat) (eventName : string)
    (listener : nat) : M unit :=
  modify (fun m =>
    set_emitter eventEmitter
      (rev (remove_first (same_listener eventName listener)
                         (rev (emitters m eventEmitter)))) m).

(** DOM [EventTarget]: a listener is identified by type, callback and the
    capture flag flattened out of [options]; adding an entry that is already
    there does nothing. *)
Definition capture_of (options : option ListenerOptions) : bool :=
  match options with
  | None => false
  | Some (OptBool b) => b
  | Some (OptObj c _ _) => c
  end.

Definition once_of (options : option ListenerOptions) : bool :=
  match options with
  | Some (OptObj _ o _) => o
  | _ => false
  end.

Definition passive_of (options : option ListenerOptions) : bool :=
  match options with
  | Some (OptObj _ _ p) => p
  | _ => false
  end.

Definition same_dom_listener (eventName : string) (listener : nat)
    (capture : bool) (d : DomListener) : bool :=
  String.eqb (ltype d) eventName && Nat.eqb (lcallback d) listener
  && Bool.eqb (lcapture d) capture.

Definition addEventListener (domObj : nat) (eventName : string)
    (listener : nat) (options : option ListenerOptions) : M unit :=
  modify (fun m =>
    if existsb (same_dom_listener eventName listener (capture_of options))
               (targets m domObj)
    then m
    else set_target domObj
           (targets m domObj ++
            [mkDomListener eventName listener (capture_of options)
                           (once_of options) (passive_of options)]) m).

Definition removeEventListener (domObj : nat) (eventName : string)
    (listener : nat) (options : option ListenerOptions) : M unit :=
  modify (fun m =>
    set_target domObj
      (filter (fun d => negb (same_dom_listener eventName listener
                                                (capture_of options) d))
              (targets m domObj)) m).

(** Timers: [setTimeout(handler, timeout, ...arguments)] keeps the handler
    and the arguments it will be called with; a missing or negative timeout
    counts as 0.  [clearTimeout] and [clearInterval] drop the entry with the
    given handle. *)
Definition timeout_of (delay : option Z) : Z :=
  match delay with
  | None => 0%Z
  | Some d => Z.max 0 d
  end.

Definition host_set_timer (repeat : bool) (handler : nat) (delay : option Z)
    (arguments : list Value) : M nat :=
  fun w =>
    let m := mem w in
    Done (Return (next_timer m))
         (with_mem
            (set_timers
               (timers m ++
                [mkTimer (next_timer m) handler (timeout_of delay) arguments
                         repeat])
               (S (next_timer m)) m) w).

Definition host_setTimeout := host_set_timer false.
Definition host_setInterval := host_set_timer true.

Definition host_clear_timer (handle : nat) : M unit :=
  modify (fun m =>
    set_timers (filter (fun t => negb (Nat.eqb (tid t) handle)) (timers m))
               (next_timer m) m).

Definition host_clearTimeout := host_clear_timer.
Definition host_clearInterval := host_clear_timer.

(** What the host does when the timer with this handle is due: the call it
    makes (handler and argument list), and the timers left pending. *)
Definition fire (handle : nat) (m : Mem) : option (nat * list Value) * Mem :=
  match find (fun t => Nat.eqb (tid t) handle) (timers m) with
  | None => (None, m)
  | Some t =>
      (Some (thandler t, targs t),
       if trepeat t then m
       else set_timers
              (filter (fun t' => negb (Nat.eqb (tid t') handle)) (timers m))
              (next_timer m) m)
  end.

(** ** The caller's functions *)

(** Functions written by the caller are given by what they do to the store:
    [user_fn u] for an [Unsubscribe], [registrar r] for a function handed to
    [subscribe], which returns an [Unsubscribe] or raises.  They are taken to
    come back; whatever they do inside, calls back into the library
    included, shows as their effect on the store. *)
Record Callers : Type := mkCallers {
  user_fn : nat -> Mem -> Completion unit * Mem;
  registrar : nat -> Mem -> Completion Fn * Mem
}.

Definition lift {A : Type} (f : Mem -> Completion A * Mem) : M A :=
  fun w => Done (fst (f (mem w))) (with_mem (snd (f (mem w))) w).

(** ** Arrays *)

(** JavaScript's [Array.prototype.forEach]: the length is read once, before
    the first call; each index below it is looked up in the array as it is
    when its turn comes, and an index no longer present is passed over. *)
Fixpoint forEach_from (callback : Fn -> M unit) (arr : nat) (k todo : nat)
    : M unit :=
  match todo with
  | O => ret tt
  | S todo' =>
      fun w =>
        match nth_error (arrays (mem w) arr) k with
        | Some kValue =>
            (callback kValue ;; forEach_from callback arr (S k) todo') w
        | None => forEach_from callback arr (S k) todo' w
        end
  end.

Definition forEach (callback : Fn -> M unit) (arr : nat) : M unit :=
  fun w => forEach_from callback arr 0 (List.length (arrays (mem w) arr)) w.

(** [Array.prototype.push] and [Array.prototype.splice(start, deleteCount)]. *)
Definition array_push (arr : nat) (f : Fn) : M unit :=
  modify (fun m => set_array arr (arrays m arr ++ [f]) m).

Definition splice {A : Type} (start deleteCount : nat) (l : list A) : list A :=
  firstn start l ++ skipn (start + deleteCount) l.

Definition array_splice (arr : nat) (start deleteCount : nat) : M unit :=
  modify (fun m => set_array arr (splice start deleteCount (arrays m arr)) m).

(** ** class Subscribe *)

Module Subscribe.
Section Static.
Variable P : Callers.
(** Calling a function object, for the callbacks below. *)
Variable call : Fn -> M unit.

Definition subscribe (subscribe : nat) : M Fn :=
  try_catch (lift (registrar P subscribe))
            (fun e => console_error e ;; closure CNoop).

Definition subscribeEvent (eventEmitter : nat) (eventName : string)
    (listener : nat) : M Fn :=
  addListener eventEmitter eventName listener ;;
  closure (CRemoveListener eventEmitter eventName listener).

Definition subscribeDOMEvent (domObj : nat) (eventName : string)
    (listener : nat) (options : option ListenerOptions) : M Fn :=
  addEventListener domObj eventName listener options ;;
  closure (CRemoveEventListener domObj eventName listener options).

(** [setTimeout(handler, delay, args)]: the rest parameter [args] is handed
    over as it is, one array. *)
Definition setTimeout (handler : nat) (delay : option Z)
    (args : list Value) : M Fn :=
  timeout <- host_setTimeout handler delay [VArr args] ;;
  closure (CClearTimeout timeout).

Definition setInterval (handler : nat) (delay : option Z)
    (args : list Value) : M Fn :=
  interval <- host_setInterval handler delay [VArr args] ;;
  closure (CClearInterval interval).

Definition unsubAll (unsubs : Unsubs) : M unit :=
  match unsubs with
  | Many arr =>
      forEach (fun unsub => try_catch (call unsub)
                                      (fun e => console_error e)) arr
  | One f =>
      try_catch (call f) (fun e => console_error e)
  end.

Definition createCleanup (unsubs : Unsubs) : M Fn :=
  closure (CUnsubAll unsubs).
End Static.
End Subscribe.

(** ** class Subs *)

Module Subs.
Section Methods.
Variable P : Callers.
Variable call : Fn -> M unit.

(** [new Subs(list)]; without an argument a fresh empty array. *)
Definition new (list : option nat) : M nat :=
  fun w =>
    match list with
    | Some l =>
        let (this, m) := new_subs l (mem w) in Done (Return this) (with_mem m w)
    | None =>
        let (l, m1) := new_array [] (mem w) in
        let (this, m2) := new_subs l m1 in
        Done (Return this) (with_mem m2 w)
    end.

Definition push (this : nat) (unsub : Fn) : M unit :=
  list <- read (fun m => subs_list m this) ;;
  array_push list unsub.

Definition subscribe (this : nat) (subscribe : nat) : M Fn :=
  unsub <- Subscribe.subscribe P subscribe ;;
  push this unsub ;;
  ret unsub.

Definition subscribeEvent (this : nat) (eventEmitter : nat)
    (eventName : string) (listener : nat) : M Fn :=
  unsub <- Subscribe.subscribeEvent eventEmitter eventName listener ;;
  push this unsub ;;
  ret unsub.

(** Three parameters; [Subscribe.subscribeDOMEvent] is called without its
    fourth argument. *)
Definition subscribeDOMEvent (this : nat) (domObj : nat)
    (eventName : string) (listener : nat) : M Fn :=
  unsub <- Subscribe.subscribeDOMEvent domObj eventName listener None ;;
  push this unsub ;;
  ret unsub.

Definition setTimeout (this : nat) (handler : nat) (delay : option Z)
    (args : list Value) : M Fn :=
  timeout <- host_setTimeout handler delay [VArr args] ;;
  unsub <- closure (CClearTimeout timeout) ;;
  push this unsub ;;
  ret unsub.

Definition setInterval (this : nat) (handler : nat) (delay : option Z)
    (args : list Value) : M Fn :=
  interval <- host_setInterval handler delay [VArr args] ;;
  unsub <- closure (CClearInterval interval) ;;
  push this unsub ;;
  ret unsub.

Definition unsubAll (this : nat) : M unit :=
  list <- read (fun m => subs_list m this) ;;
  Subscribe.unsubAll call (Many list) ;;
  list' <- read (fun m => subs_list m this) ;;
  len <- read (fun m => List.length (arrays m list')) ;;
  array_splice list' 0 len.

Definition createCleanup (this : nat) : M Fn :=
  closure (CSubsUnsubAll this).
End Methods.
End Subs.

(** ** Calling a function object *)

(** The body of each closure.  The two cleanup closures re-enter the library,
    so the definition runs on a bound [n] for the depth of such re-entry and
    diverges when it is used up.  [call] runs the body and records the call
    in the trace, with the events of the body nested inside it. *)
Definition record_call (f : Fn) (body : M unit) : M unit :=
  fun w =>
    match body (mkWorld (mem w) []) with
    | Done (Return tt) w1 =>
        Done (Return tt)
             (mkWorld (mem w1) (trace w ++ [Invoked f (trace w1) None]))
    | Done (Throw e) w1 =>
        Done (Throw e)
             (mkWorld (mem w1) (trace w ++ [Invoked f (trace w1) (Some e)]))
    | Diverge => Diverge
    end.

Fixpoint call (P : Callers) (n : nat) (f : Fn) {struct n} : M unit :=
  record_call f
    match code f with
    | CNoop => ret tt
    | CRemoveListener eventEmitter eventName listener =>
        removeListener eventEmitter eventName listener
    | CRemoveEventListener domObj eventName listener options =>
        removeEventListener domObj eventName listener options
    | CClearTimeout timeout => host_clearTimeout timeout
    | CClearInterval interval => host_clearInterval interval
    | CUser u => lift (user_fn P u)
    | CUnsubAll unsubs =>
        match n with
        | O => diverge
        | S n' => Subscribe.unsubAll (call P n') unsubs
        end
    | CSubsUnsubAll this =>
        match n with
        | O => diverge
        | S n' => Subs.unsubAll (call P n') this
        end
    end.

(** ** The compiled build, dist/index.js *)

(** The build that ships in [dist] is an earlier state of the same two
    classes, there called [Subscribe] and [Subscriptions].  Its collector
    keeps its array in the field [unsubs], pushes onto it directly, and
    clears by putting a new empty array into the field.  The field is kept
    in the same map as [list]. *)
Definition set_field (this l : nat) (m : Mem) : Mem :=
  mkMem (arrays m) (next_array m) (upd (subs_list m) this l) (next_subs m)
        (next_fn m) (emitters m) (targets m) (timers m) (next_timer m)
        (userdata m).

(** Evaluating the array literal [[]]: a new empty array. *)
Definition empty_array : M nat :=
  fun w => let (l, m) := new_array [] (mem w) in Done (Return l) (with_mem m w).

Module Dist.

Module Subscribe.
Section Static.
Variable P : Callers.
Variable call : Fn -> M unit.

Definition subscribe (subscribe : nat) : M Fn :=
  try_catch (lift (registrar P subscribe))
            (fun e => console_error e ;; closure CNoop).

Definition subscribeEvent (eventEmitter : nat) (eventName : string)
    (listener : nat) : M Fn :=
  addListener eventEmitter eventName listener ;;
  closure (CRemoveListener eventEmitter eventName listener).

(** Two arguments reach [addEventListener] and [removeEventListener]. *)
Definition subscribeDOMEvent (domObj : nat) (eventName : string)
    (listener : nat) : M Fn :=
  addEventListener domObj eventName listener None ;;
  closure (CRemoveEventListener domObj eventName listener None).

Definition unsubscribeAll (unsubs : Unsubs) : M unit :=
  match unsubs with
  | Many arr =>
      forEach (fun unsub => try_catch (call unsub)
                                      (fun e => console_error e)) arr
  | One f =>
      try_catch (call f) (fun e => console_error e)
  end.
End Static.
End Subscribe.

Module Subscriptions.
Section Methods.
Variable P : Callers.
Variable call : Fn -> M unit.

Definition new (unsubs : option nat) : M nat :=
  fun w =>
    match unsubs with
    | Some l =>
        let (this, m) := new_subs l (mem w) in Done (Return this) (with_mem m w)
    | None =>
        let (l, m1) := new_array [] (mem w) in
        let (this, m2) := new_subs l m1 in
        Done (Return this) (with_mem m2 w)
    end.

Definition subscribe (this : nat) (subscribe : nat) : M Fn :=
  unsub <- Subscribe.subscribe P subscribe ;;
  unsubs <- read (fun m => subs_list m this) ;;
  array_push unsubs unsub ;;
  ret unsub.

Definition subscribeEvent (this : nat) (eventEmitter : nat)
    (eventName : string) (listener : nat) : M Fn :=
  unsub <- Subscribe.subscribeEvent eventEmitter eventName listener ;;
  unsubs <- read (fun m => subs_list m this) ;;
  array_push unsubs unsub ;;
  ret unsub.

Definition subscribeDOMEvent (this : nat) (domObj : nat)
    (eventName : string) (listener : nat) : M Fn :=
  unsub <- Subscribe.subscribeDOMEvent domObj eventName listener ;;
  unsubs <- read (fun m => subs_list m this) ;;
  array_push unsubs unsub ;;
  ret unsub.

Definition unsubscribeAll (this : nat) : M unit :=
  unsubs <- read (fun m => subs_list m this) ;;
  Subscribe.unsubscribeAll call (Many unsubs) ;;
  fresh <- empty_array ;;
  modify (set_field this fresh).
End Methods.
End Subscriptions.

End Dist.

(** ** Vocabulary of the statements *)

(** The sequence an [unsubAll] argument stands for in a given store. *)
Definition sequence_of (unsubs : Unsubs) (m : Mem) : list Fn :=
  match unsubs with
  | One f => [f]
  | Many arr => arrays m arr
  end.

(** Following the spec's words: every element is invoked, in order, and an
    element that raises has its error logged while the rest go on. *)
Fixpoint invoke_each (call : Fn -> M unit) (A : list Fn) : M unit :=
  match A with
  | [] => ret tt
  | a :: A' =>
      try_catch (call a) (fun e => console_error e) ;; invoke_each call A'
  end.

(** A stretch of trace in which exactly the functions of [A] were called, one
    call each, in the order of [A], every raised value logged right after the
    call that raised it, and nothing else. *)
Inductive isolated : list Fn -> list Event -> Prop :=
  | isolated_nil : isolated [] []
  | isolated_ok a A inner evs :
      isolated A evs -> isolated (a :: A) (Invoked a inner None :: evs)
  | isolated_raise a A inner e evs :
      isolated A evs ->
      isolated (a :: A) (Invoked a inner (Some e) :: Logged e :: evs).

(** The functions called at the top level of a stretch of trace. *)
Fixpoint callees (evs : list Event) : list Fn :=
  match evs with
  | [] => []
  | Invoked f _ _ :: evs' => f :: callees evs'
  | Logged _ :: evs' => callees evs'
  end.

(** What the statements ask of the functions that get called is phrased with
    an invariant [I] of the store: called in a store where [I] holds, the
    function comes back, normally or by raising, to a store where [I] holds.
    What a function must leave alone is then said once, as a consequence of
    [I]. *)
Definition returns_in (I : Mem -> Prop) (call : Fn -> M unit) (a : Fn) : Prop :=
  forall w, I (mem w) ->
    exists c w', call a w = Done c w' /\ I (mem w').

(** The array at [arr] still begins with [A]: nothing was removed or
    replaced, things may have been appended. *)
Definition begins_with (arr : nat) (A : list Fn) (m : Mem) : Prop :=
  exists ext, arrays m arr = A ++ ext.

(** The same for an [unsubAll] argument; a single function always stands for
    itself. *)
Definition keeps_sequence (I : Mem -> Prop) (unsubs : Unsubs) (A : list Fn)
    : Prop :=
  forall m, I m -> exists ext, sequence_of unsubs m = A ++ ext.

(** An invariant that speaks of the arrays and of the [list] fields only. *)
Definition about_collectors (I : Mem -> Prop) : Prop :=
  forall m m',
    arrays m' = arrays m -> subs_list m' = subs_list m -> I m -> I m'.

(** The closures the registration adapters return. *)
Definition is_adapter_closure (f : Fn) : Prop :=
  match code f with
  | CNoop | CRemoveListener _ _ _ | CRemoveEventListener _ _ _ _
  | CClearTimeout _ | CClearInterval _ => True
  | CUnsubAll _ | CSubsUnsubAll _ | CUser _ => False
  end.

Definition is_user_closure (f : Fn) : Prop :=
  match code f with
  | CUser _ => True
  | _ => False
  end.

(** The world after [try { unsub() } catch (e) { console.error(e) }], given
    how the call completed. *)
Definition after_guard (c : Completion unit) (w1 : World) : World :=
  match c with
  | Return _ => w1
  | Throw e => emit (Logged e) w1
  end.

Definition raised_of (c : Completion unit) : option Value :=
  match c with
  | Return _ => None
  | Throw e => Some e
  end.

(** Following the spec's words for the collector's [subscribeDOMEvent]: the
    registration it makes on [domObj] is the one
    [Subscribe.subscribeDOMEvent] makes when given [options], and the
    function returned detaches with the same [options]. *)
Definition forwards_options (this domObj : nat) (eventName : string)
    (listener : nat) (options : option ListenerOptions) (w : World) : Prop :=
  exists u1 w1 u2 w2,
    Subs.subscribeDOMEvent this domObj eventName listener w
      = Done (Return u1) w1 /\
    Subscribe.subscribeDOMEvent domObj eventName listener options w
      = Done (Return u2) w2 /\
    targets (mem w1) domObj = targets (mem w2) domObj /\
    code u1 = CRemoveEventListener domObj eventName listener options.

(** A function handed to [subscribe] that leaves the collector alone: the
    [list] field and the array it points to. *)
Definition discreet (P : Callers) (this : nat) (r : nat) : Prop :=
  forall m,
    subs_list (snd (registrar P r m)) this = subs_list m this /\
    arrays (snd (registrar P r m)) (subs_list m this)
      = arrays m (subs_list m this).

(** The registrations a caller can make through a collector. *)
Inductive Registration : Type :=
  | RSubscribe (subscribe : nat)
  | RSubscribeEvent (eventEmitter : nat) (eventName : string) (listener : nat)
  | RSubscribeDOMEvent (domObj : nat) (eventName : string) (listener : nat)
  | RSetTimeout (handler : nat) (delay : option Z) (args : list Value)
  | RSetInterval (handler : nat) (delay : option Z) (args : list Value)
  | RPush (unsub : Fn).

(** One call on the collector; the result is the function the call returns,
    for [push] the function pushed. *)
Definition perform (P : Callers) (this : nat) (r : Registration) : M Fn :=
  match r with
  | RSubscribe s => Subs.subscribe P this s
  | RSubscribeEvent em ev l => Subs.subscribeEvent this em ev l
  | RSubscribeDOMEvent d ev l => Subs.subscribeDOMEvent this d ev l
  | RSetTimeout h d args => Subs.setTimeout this h d args
  | RSetInterval h d args => Subs.setInterval this h d args
  | RPush f => Subs.push this f ;; ret f
  end.

Fixpoint perform_all (P : Callers) (this : nat) (rs : list Registration)
    : M (list Fn) :=
  match rs with
  | [] => ret []
  | r :: rs' =>
      f <- perform P this r ;;
      fs <- perform_all P this rs' ;;
      ret (f :: fs)
  end.

Fixpoint push_all (this : nat) (fs : list Fn) : M unit :=
  match fs with
  | [] => ret tt
  | f :: fs' => Subs.push this f ;; push_all this fs'
  end.

(** ** A small client program *)

Module Demo.

(** The caller's [Unsubscribe] functions: 0 raises "boom"; 1 pushes a
    function onto the collector at address 0; any other [u] leaves the
    number [u] in the caller's data. *)
Definition pushed : Fn := Closure 1000 (CUser 7).

Definition user (u : nat) (m : Mem) : Completion unit * Mem :=
  match u with
  | 0 => (Throw (VStr "boom"), m)
  | 1 => (Return tt,
          set_array (subs_list m 0) (arrays m (subs_list m 0) ++ [pushed]) m)
  | _ => (Return tt,
          mkMem (arrays m) (next_array m) (subs_list m) (next_subs m)
                (next_fn m) (emitters m) (targets m) (timers m)
                (next_timer m) (userdata m ++ [VNum (Z.of_nat u)]))
  end.

(** Functions handed to [subscribe]: 0 raises "nope"; any other [r]
    returns the caller's function number [r]. *)
Definition reg (r : nat) (m : Mem) : Completion Fn * Mem :=
  match r with
  | 0 => (Throw (VStr "nope"), m)
  | _ => (Return (Closure (500 + r) (CUser r)), m)
  end.

Definition P : Callers := mkCallers user reg.

Definition boom : Fn := Closure 100 (CUser 0).
Definition pusher : Fn := Closure 101 (CUser 1).
Definition mark (u : nat) : Fn := Closure (200 + u) (CUser u).

(** An empty store: collectors at addresses 0 and 1, with their arrays at
    0 and 1. *)
Definition m0 : Mem :=
  mkMem (fun _ => []) 2 (fun this => this) 2 0 (fun _ => []) (fun _ => [])
        [] 0 [].
Definition w0 : World := mkWorld m0 [].

Definition with_list (fs : list Fn) : World :=
  mkWorld (set_array 0 fs m0) [].

(** The cleanup function of collector 1, and a store in which collector 0
    holds it while collector 1 holds two functions of its own. *)
Definition inner_cleanup : Fn := Closure 300 (CSubsUnsubAll 1).

Definition nested : World :=
  mkWorld (set_array 1 [mark 5; boom] (set_array 0 [mark 3; inner_cleanup] m0))
          [].

(** What stays true of the store while collector 0 of [nested] is flushed:
    collector 1 keeps its array, the array of collector 0 keeps its
    beginning, and collector 1 holds functions of the caller only. *)
Definition nested_inv (m : Mem) : Prop :=
  subs_list m 1 = 1 /\
  begins_with 0 [mark 3; inner_cleanup] m /\
  Forall is_user_closure (arrays m 1).

End Demo.

(** ** Further vocabulary: what a collector was used for *)

(** Registrations made by the adapters alone, without a function of the
    caller: events, DOM events and timers. *)
Definition is_adapter_registration (r : Registration) : Prop :=
  match r with
  | RSubscribeEvent _ _ _ | RSubscribeDOMEvent _ _ _
  | RSetTimeout _ _ _ | RSetInterval _ _ _ => True
  | RSubscribe _ | RPush _ => False
  end.

(** The timer handles a list of functions clears when each is called. *)
Definition cleared_handle (f : Fn) : list nat :=
  match code f with
  | CClearTimeout h | CClearInterval h => [h]
  | _ => []
  end.

Definition cleared_handles (fs : list Fn) : list nat :=
  flat_map cleared_handle fs.

(** The DOM registrations on [domObj] a list of functions detaches: type,
    callback and capture flag. *)
Definition detached_from (domObj : nat) (f : Fn) : list (string * nat * bool) :=
  match code f with
  | CRemoveEventListener d eventName listener options =>
      if Nat.eqb d domObj then [(eventName, listener, capture_of options)]
      else []
  | _ => []
  end.

Definition detached_keys (domObj : nat) (fs : list Fn)
    : list (string * nat * bool) :=
  flat_map (detached_from domObj) fs.

Definition matches_key (d : DomListener) (k : string * nat * bool) : bool :=
  same_dom_listener (fst (fst k)) (snd (fst k)) (snd k) d.

(** The emitter listeners on [eventEmitter] a list of functions removes, one
    registration per function. *)
Definition removed_from (eventEmitter : nat) (f : Fn) : list (string * nat) :=
  match code f with
  | CRemoveListener e eventName listener =>
      if Nat.eqb e eventEmitter then [(eventName, listener)] else []
  | _ => []
  end.

Definition removed_keys (eventEmitter : nat) (fs : list Fn)
    : list (string * nat) :=
  flat_map (removed_from eventEmitter) fs.

(** What one [removeListener] call does to an emitter's list, and what the
    calls for a list of keys do, first key first. *)
Definition remove_last (k : string * nat) (l : list (string * nat))
    : list (string * nat) :=
  rev (remove_first (same_listener (fst k) (snd k)) (rev l)).

Definition remove_each (ks : list (string * nat)) (l : list (string * nat))
    : list (string * nat) :=
  fold_left (fun l k => remove_last k l) ks l.

(** Timers other than those with a handle in [hs]; listeners other than
    those matching a key in [ks]. *)
Definition without_handles (hs : list nat) (ts : list Timer) : list Timer :=
  filter (fun t => negb (existsb (Nat.eqb (tid t)) hs)) ts.

Definition without_keys (ks : list (string * nat * bool))
    (ds : list DomListener) : list DomListener :=
  filter (fun d => negb (existsb (matches_key d) ks)) ds.

(** The trace of calls that each return without doing anything the library
    sees. *)
Definition quiet_calls (fs : list Fn) : list Event :=
  map (fun f => Invoked f [] None) fs.

(** A caller whose function 0 empties the array at address 0 (as
    [list.length = 0] would) and whose other functions do nothing. *)
Module Clearing.

Definition user (u : nat) (m : Mem) : Completion unit * Mem :=
  match u with
  | 0 => (Return tt, set_array 0 [] m)
  | _ => (Return tt, m)
  end.

Definition P : Callers := mkCallers user (fun _ m => (Throw VUndefined, m)).

Definition clearer : Fn := Closure 400 (CUser 0).
Definition idle : Fn := Closure 401 (CUser 1).

End Clearing.

(** ** Further vocabulary: what happens between two calls *)

(** A computation that never sets the function allocator back: the function
    objects made after it are new with respect to those made before it. *)
Definition forward {A : Type} (m : M A) : Prop :=
  forall w c w', m w = Done c w' -> next_fn (mem w) <= next_fn (mem w').

(** Callers whose functions leave the allocator where it was or further on;
    in JavaScript no function can do otherwise. *)
Definition allocates_forward (P : Callers) : Prop :=
  (forall u m, next_fn m <= next_fn (snd (user_fn P u m))) /\
  (forall r m, next_fn m <= next_fn (snd (registrar P r m))).

(** What a caller does with a collector, one step at a time: a registration
    or a push, a flush, a call of some function, asking for a cleanup
    function. *)
Inductive Step : Type :=
  | SPerform (r : Registration)
  | SUnsubAll
  | SCall (f : Fn)
  | SCreateCleanup.

Definition run_step (P : Callers) (n : nat) (this : nat) (s : Step) : M unit :=
  match s with
  | SPerform r => perform P this r ;; ret tt
  | SUnsubAll => Subs.unsubAll (call P n) this
  | SCall f => call P n f
  | SCreateCleanup => Subs.createCleanup this ;; ret tt
  end.

Fixpoint run_steps (P : Callers) (n : nat) (this : nat) (steps : list Step)
    : M unit :=
  match steps with
  | [] => ret tt
  | s :: steps' => run_step P n this s ;; run_steps P n this steps'
  end.

(** * Properties *)

(** ** Running one guarded call *)

Lemma guard_done (call : Fn -> M unit) a w c w1 :
  call a w = Done c w1 ->
  try_catch (call a) (fun e => console_error e) w
    = Done (Return tt) (after_guard c w1).
Proof.
  intros H. unfold try_catch. rewrite H.
  destruct c as [[]|e]; reflexivity.
Qed.

Lemma after_guard_mem c w1 : mem (after_guard c w1) = mem w1.
Proof. destruct c; reflexivity. Qed.

Lemma call_is_recorded P n f :
  exists body, call P n f = record_call f body.
Proof. destruct n; simpl; eexists; reflexivity. Qed.

Lemma call_trace P n f w c w1 :
  call P n f w = Done c w1 ->
  exists inner, trace w1 = trace w ++ [Invoked f inner (raised_of c)].
Proof.
  destruct (call_is_recorded P n f) as [body ->].
  unfold record_call.
  destruct (body _) as [[[]|e] w2|]; intros H; inversion H; subst; simpl;
    eexists; reflexivity.
Qed.

Lemma guard_trace P n a w c w1 :
  call P n a w = Done c w1 ->
  exists evs, trace (after_guard c w1) = trace w ++ evs /\ isolated [a] evs.
Proof.
  intros H. destruct (call_trace _ _ _ _ _ _ H) as [inner Ht].
  destruct c as [[]|e]; simpl in *.
  - exists [Invoked a inner None]. split; [exact Ht|repeat constructor].
  - exists [Invoked a inner (Some e); Logged e]. split.
    + rewrite Ht, <- app_assoc. reflexivity.
    + repeat constructor.
Qed.

Lemma isolated_app A B evsA evsB :
  isolated A evsA -> isolated B evsB -> isolated (A ++ B) (evsA ++ evsB).
Proof.
  induction 1; intros HB; simpl; [exact HB|constructor; auto|constructor; auto].
Qed.

Lemma isolated_callees A evs : isolated A evs -> callees evs = A.
Proof. induction 1; simpl; congruence. Qed.

(** ** The loop against the sequence *)

Section Loop.
Variable call : Fn -> M unit.
Variable I : Mem -> Prop.

Lemma invoke_each_cons a A w c w1 :
  call a w = Done c w1 ->
  invoke_each call (a :: A) w = invoke_each call A (after_guard c w1).
Proof.
  intros H. simpl. unfold bind at 1. rewrite (guard_done _ _ _ _ _ H).
  reflexivity.
Qed.

(** While the array keeps beginning with [pre ++ A], with [pre] already
    visited, the loop over the [length A] indices that remain does what
    [invoke_each] does on [A]. *)
Lemma forEach_from_invoke_each arr A :
  forall pre,
    (forall m, I m -> begins_with arr (pre ++ A) m) ->
    (forall a, In a A -> returns_in I call a) ->
    forall w, I (mem w) ->
      forEach_from
        (fun unsub => try_catch (call unsub) (fun e => console_error e))
        arr (List.length pre) (List.length A) w
      = invoke_each call A w.
Proof.
  induction A as [|a A IH]; intros pre Hpre HA w Hw; [reflexivity|].
  destruct (HA a (or_introl eq_refl) w Hw) as (c & w1 & Hc & Hw1).
  destruct (Hpre _ Hw) as [ext Harr].
  rewrite (invoke_each_cons _ _ _ _ _ Hc).
  cbn [List.length forEach_from]. rewrite Harr, <- app_assoc.
  rewrite nth_error_app2, Nat.sub_diag by lia. cbn [nth_error app].
  unfold bind at 1. cbv beta. rewrite (guard_done _ _ _ _ _ Hc).
  replace (S (List.length pre)) with (List.length (pre ++ [a]))
    by (rewrite length_app; simpl; lia).
  apply IH.
  - intros m Hm. rewrite <- app_assoc. apply Hpre. exact Hm.
  - intros b Hb. apply HA. right. exact Hb.
  - rewrite after_guard_mem. exact Hw1.
Qed.

Lemma unsubAll_invoke_each unsubs w :
  I (mem w) ->
  keeps_sequence I unsubs (sequence_of unsubs (mem w)) ->
  (forall a, In a (sequence_of unsubs (mem w)) -> returns_in I call a) ->
  Subscribe.unsubAll call unsubs w
    = invoke_each call (sequence_of unsubs (mem w)) w.
Proof.
  destruct unsubs as [f|arr]; simpl; intros Hw Hkeep HA.
  - destruct (HA f (or_introl eq_refl) w Hw) as (c & w1 & Hc & _).
    unfold bind. rewrite (guard_done _ _ _ _ _ Hc). reflexivity.
  - unfold forEach.
    apply (forEach_from_invoke_each arr (arrays (mem w) arr) []); assumption.
Qed.
End Loop.

(** [invoke_each] leaves in the trace one call per element, in order, each
    raise logged. *)
Lemma invoke_each_isolated P n I A :
  (forall a, In a A -> returns_in I (call P n) a) ->
  forall w, I (mem w) ->
    exists w' evs,
      invoke_each (call P n) A w = Done (Return tt) w' /\
      trace w' = trace w ++ evs /\ isolated A evs /\ I (mem w').
Proof.
  induction A as [|a A IH]; intros HA w Hw.
  - exists w, []. split; [reflexivity|]. split; [|split; [constructor|exact Hw]].
    symmetry. apply app_nil_r.
  - destruct (HA a (or_introl eq_refl) w Hw) as (c & w1 & Hc & Hw1).
    rewrite (invoke_each_cons _ _ _ _ _ _ Hc).
    destruct (guard_trace _ _ _ _ _ _ Hc) as (evs1 & Ht1 & Hi1).
    destruct (IH (fun b Hb => HA b (or_intror Hb)) (after_guard c w1))
      as (w' & evs & Hw' & Ht & Hi & HI).
    { rewrite after_guard_mem. exact Hw1. }
    exists w', (evs1 ++ evs). split; [exact Hw'|]. split; [|split].
    + rewrite Ht, Ht1, app_assoc. reflexivity.
    + apply (isolated_app [a] A); assumption.
    + exact HI.
Qed.

(** [unsubAll] cannot complete by raising, whatever the functions do. *)
Lemma forEach_from_never_raises call arr todo :
  forall k w e w',
    forEach_from
      (fun unsub => try_catch (call unsub) (fun e => console_error e))
      arr k todo w <> Done (Throw e) w'.
Proof.
  induction todo as [|todo IH]; intros k w e w'; simpl; [discriminate|].
  destruct (nth_error _ k) as [f|]; [|apply IH].
  unfold bind, try_catch.
  destruct (call f w) as [[[]|e1] w1|]; simpl;
    [apply IH|apply IH|discriminate].
Qed.

Lemma unsubAll_never_raises call unsubs w e w' :
  Subscribe.unsubAll call unsubs w <> Done (Throw e) w'.
Proof.
  destruct unsubs as [f|arr]; simpl.
  - unfold try_catch. destruct (call f w) as [[[]|e1] w1|]; discriminate.
  - apply forEach_from_never_raises.
Qed.

(** What [Subscribe.unsubAll] does when the elements of the sequence return
    under an invariant that keeps the sequence in place. *)
Lemma unsubAll_settled (P : Callers) (n : nat) (I : Mem -> Prop)
    (unsubs : Unsubs) (w : World) :
  I (mem w) ->
  keeps_sequence I unsubs (sequence_of unsubs (mem w)) ->
  (forall a, In a (sequence_of unsubs (mem w)) -> returns_in I (call P n) a) ->
  exists w' evs,
    Subscribe.unsubAll (call P n) unsubs w = Done (Return tt) w' /\
    invoke_each (call P n) (sequence_of unsubs (mem w)) w
      = Done (Return tt) w' /\
    trace w' = trace w ++ evs /\
    isolated (sequence_of unsubs (mem w)) evs /\
    I (mem w').
Proof.
  intros Hw Hkeep HA.
  rewrite (unsubAll_invoke_each _ I _ _ Hw Hkeep HA).
  destruct (invoke_each_isolated P n I _ HA w Hw)
    as (w' & evs & Hw' & Ht & Hi & HI).
  exists w', evs. auto.
Qed.

(** ** Which closures return under which invariant *)

Lemma user_returns_in P n (I : Mem -> Prop) id u :
  (forall m, I m -> I (snd (user_fn P u m))) ->
  returns_in I (call P n) (Closure id (CUser u)).
Proof.
  intros H w Hw. specialize (H _ Hw).
  destruct n; simpl; unfold record_call, lift; simpl;
    destruct (user_fn P u (mem w)) as [[[]|e] m1]; simpl in *;
    do 2 eexists; (split; [reflexivity|exact H]).
Qed.

(** The closures made by the adapters touch emitters, targets and timers
    only. *)
Lemma adapter_returns_in P n (I : Mem -> Prop) f :
  about_collectors I -> is_adapter_closure f -> returns_in I (call P n) f.
Proof.
  intros HI Hf w Hw. destruct f as [id c]. unfold is_adapter_closure in Hf.
  destruct c; simpl in Hf; try contradiction;
    destruct n; simpl; unfold record_call; simpl;
    do 2 eexists; (split; [reflexivity|]); simpl;
    try exact Hw; apply (HI (mem w)); auto.
Qed.

Lemma demo_begins_with arr A u m :
  begins_with arr A m -> begins_with arr A (snd (Demo.user u m)).
Proof.
  intros [ext Hext]. destruct u as [|[|u]]; simpl.
  - exists ext. exact Hext.
  - unfold begins_with. simpl. unfold upd.
    destruct (Nat.eqb_spec arr (subs_list m 0)) as [<-|_].
    + exists (ext ++ [Demo.pushed]). rewrite Hext, app_assoc. reflexivity.
    + exists ext. exact Hext.
  - exists ext. exact Hext.
Qed.

Lemma demo_subs_list u m : subs_list (snd (Demo.user u m)) = subs_list m.
Proof. destruct u as [|[|u]]; reflexivity. Qed.

Lemma demo_arrays u m : u <> 1 -> arrays (snd (Demo.user u m)) = arrays m.
Proof. destruct u as [|[|u]]; [reflexivity|contradiction|reflexivity]. Qed.

(** In a list of the caller's functions every element is one. *)
Lemma user_list_cases (Q : Fn -> Prop) (fs : list Fn) :
  Forall is_user_closure fs ->
  (forall id u, In (Closure id (CUser u)) fs -> Q (Closure id (CUser u))) ->
  forall a, In a fs -> Q a.
Proof.
  intros Hfs HQ a Ha. rewrite Forall_forall in Hfs.
  pose proof (Hfs a Ha) as Hu.
  destruct a as [id []]; simpl in Hu; try contradiction. apply HQ. exact Ha.
Qed.

(** ** Subscribe.unsubAll *)

(** C1.  [Subscribe.unsubAll] applied to a sequence of functions, some of
    which raise: the call returns normally; it does what invoking the
    elements one after the other does, each wrapped in its own try/catch; the
    trace it adds has exactly one call per element, in sequence order, and
    every raised value is logged right after the call that raised it.  The
    same when a single function is passed instead of an array.  This is for
    functions that return, under an invariant [I] of the store which keeps
    the sequence in place (appending to it is allowed).  And whatever the
    functions do, [Subscribe.unsubAll] never completes by raising. *)
Theorem unsubAll_isolates_failures (P : Callers) (n : nat) (I : Mem -> Prop)
    (unsubs : Unsubs) (w : World) :
  I (mem w) ->
  keeps_sequence I unsubs (sequence_of unsubs (mem w)) ->
  (forall a, In a (sequence_of unsubs (mem w)) -> returns_in I (call P n) a) ->
  (exists w' evs,
     Subscribe.unsubAll (call P n) unsubs w = Done (Return tt) w' /\
     invoke_each (call P n) (sequence_of unsubs (mem w)) w
       = Done (Return tt) w' /\
     trace w' = trace w ++ evs /\
     isolated (sequence_of unsubs (mem w)) evs /\
     callees evs = sequence_of unsubs (mem w)) /\
  (forall call' unsubs' w0 e w0',
     Subscribe.unsubAll call' unsubs' w0 <> Done (Throw e) w0').
Proof.
  intros Hw Hkeep HA. split.
  - destruct (unsubAll_settled P n I unsubs w Hw Hkeep HA)
      as (w' & evs & H1 & H2 & H3 & H4 & _).
    exists w', evs. repeat split; auto using isolated_callees.
  - intros call' unsubs' w0 e w0'. apply unsubAll_never_raises.
Qed.

Lemma unsubAll_isolates_failures_witness :
  (exists w' evs,
     Subscribe.unsubAll (call Demo.P 0) (Many 0)
       (Demo.with_list [Demo.mark 3; Demo.boom; Demo.pusher; Demo.mark 4])
       = Done (Return tt) w' /\
     invoke_each (call Demo.P 0)
       [Demo.mark 3; Demo.boom; Demo.pusher; Demo.mark 4]
       (Demo.with_list [Demo.mark 3; Demo.boom; Demo.pusher; Demo.mark 4])
       = Done (Return tt) w' /\
     trace w' = [] ++ evs /\
     isolated [Demo.mark 3; Demo.boom; Demo.pusher; Demo.mark 4] evs /\
     callees evs = [Demo.mark 3; Demo.boom; Demo.pusher; Demo.mark 4]) /\
  (exists w' evs,
     Subscribe.unsubAll (call Demo.P 0) (One Demo.boom) Demo.w0
       = Done (Return tt) w' /\
     invoke_each (call Demo.P 0) [Demo.boom] Demo.w0 = Done (Return tt) w' /\
     trace w' = [] ++ evs /\
     isolated [Demo.boom] evs /\
     callees evs = [Demo.boom]).
Proof.
  split.
  - apply (unsubAll_isolates_failures Demo.P 0
             (begins_with 0 [Demo.mark 3; Demo.boom; Demo.pusher; Demo.mark 4])
             (Many 0)
             (Demo.with_list [Demo.mark 3; Demo.boom; Demo.pusher; Demo.mark 4])).
    + exists []. reflexivity.
    + intros m Hm. exact Hm.
    + apply user_list_cases; [repeat constructor|].
      intros id u _. apply user_returns_in. apply demo_begins_with.
  - apply (unsubAll_isolates_failures Demo.P 0 (fun _ => True)
             (One Demo.boom) Demo.w0).
    + exact Logic.I.
    + intros m _. exists []. reflexivity.
    + apply user_list_cases; [repeat constructor|].
      intros id u _. apply user_returns_in. intros m _. exact Logic.I.
Defined.

(** ** Subscribe.subscribe *)

(** C2.  [Subscribe.subscribe] calls the function it is given.  When that
    returns a function, exactly this function is returned and nothing is
    logged.  When it raises, the value is logged, nothing is raised to the
    caller, and the result is a new function whose call, in any world,
    returns normally, changes nothing in the store and does nothing
    inside. *)
Theorem subscribe_guards_registration (P : Callers) (r : nat) (w : World) :
  match registrar P r (mem w) with
  | (Return f, m1) =>
      Subscribe.subscribe P r w = Done (Return f) (mkWorld m1 (trace w))
  | (Throw e, m1) =>
      let noop := Closure (next_fn m1) CNoop in
      Subscribe.subscribe P r w
        = Done (Return noop)
               (mkWorld (set_next_fn (S (next_fn m1)) m1)
                        (trace w ++ [Logged e])) /\
      forall n w',
        call P n noop w'
          = Done (Return tt)
                 (mkWorld (mem w') (trace w' ++ [Invoked noop [] None]))
  end.
Proof.
  unfold Subscribe.subscribe, try_catch, lift.
  destruct (registrar P r (mem w)) as [[f|e] m1]; simpl; [reflexivity|].
  split; [reflexivity|]. intros n w'. destruct n; reflexivity.
Qed.

(** ** Subs.unsubAll *)

Lemma splice_all {A : Type} (l : list A) : splice 0 (List.length l) l = [].
Proof. unfold splice. simpl. apply skipn_all. Qed.

(** The flush is the loop of [Subscribe.unsubAll] over the array the [list]
    field points to, then the array the field points to emptied in place. *)
Lemma Subs_unsubAll_unfold call this w :
  Subs.unsubAll call this w
  = match Subscribe.unsubAll call (Many (subs_list (mem w) this)) w with
    | Done (Return _) w1 =>
        Done (Return tt)
             (mkWorld (set_array (subs_list (mem w1) this) [] (mem w1))
                      (trace w1))
    | Done (Throw e) w1 => Done (Throw e) w1
    | Diverge => Diverge
    end.
Proof.
  unfold Subs.unsubAll, bind, read. cbv beta iota.
  destruct (Subscribe.unsubAll call (Many (subs_list (mem w) this)) w)
    as [[[]|e] w1|]; try reflexivity.
  unfold array_splice, modify, with_mem. rewrite splice_all. reflexivity.
Qed.

Lemma Subs_push_run this f w :
  Subs.push this f w
  = Done (Return tt)
         (mkWorld (set_array (subs_list (mem w) this)
                             (arrays (mem w) (subs_list (mem w) this) ++ [f])
                             (mem w))
                  (trace w)).
Proof. reflexivity. Qed.

(** What [Subs.unsubAll] does when the functions in the array return under
    an invariant that keeps the array in place. *)
Lemma Subs_unsubAll_settled (P : Callers) (n : nat) (I : Mem -> Prop)
    (this : nat) (w : World) :
  I (mem w) ->
  keeps_sequence I (Many (subs_list (mem w) this))
                 (arrays (mem w) (subs_list (mem w) this)) ->
  (forall a, In a (arrays (mem w) (subs_list (mem w) this)) ->
             returns_in I (call P n) a) ->
  exists w1 w' evs,
    Subscribe.unsubAll (call P n) (Many (subs_list (mem w) this)) w
      = Done (Return tt) w1 /\
    I (mem w1) /\
    Subs.unsubAll (call P n) this w = Done (Return tt) w' /\
    mem w' = set_array (subs_list (mem w1) this) [] (mem w1) /\
    trace w' = trace w1 /\
    trace w' = trace w ++ evs /\
    isolated (arrays (mem w) (subs_list (mem w) this)) evs /\
    arrays (mem w') (subs_list (mem w') this) = [].
Proof.
  intros Hw Hkeep HA.
  destruct (unsubAll_settled P n I (Many (subs_list (mem w) this)) w
              Hw Hkeep HA)
    as (w1 & evs & Hrun & _ & Ht & Hi & HI).
  rewrite Subs_unsubAll_unfold, Hrun.
  exists w1. eexists. exists evs.
  split; [reflexivity|]. split; [exact HI|]. split; [reflexivity|].
  simpl in *. repeat (split; [auto; fail|]).
  unfold upd. rewrite Nat.eqb_refl. reflexivity.
Qed.

(** Calling the function made by [Subs.createCleanup]. *)
Lemma call_Subs_cleanup P n (I : Mem -> Prop) id this w :
  I (mem w) ->
  keeps_sequence I (Many (subs_list (mem w) this))
                 (arrays (mem w) (subs_list (mem w) this)) ->
  (forall a, In a (arrays (mem w) (subs_list (mem w) this)) ->
             returns_in I (call P n) a) ->
  exists w' inner,
    call P (S n) (Closure id (CSubsUnsubAll this)) w = Done (Return tt) w' /\
    trace w' = trace w ++ [Invoked (Closure id (CSubsUnsubAll this)) inner None] /\
    isolated (arrays (mem w) (subs_list (mem w) this)) inner /\
    arrays (mem w') (subs_list (mem w') this) = [] /\
    exists m1, I m1 /\ mem w' = set_array (subs_list m1 this) [] m1.
Proof.
  intros Hw Hkeep HA.
  destruct (Subs_unsubAll_settled P n I this (mkWorld (mem w) []) Hw Hkeep HA)
    as (w1 & w2 & evs & _ & HI & Hrun & Hmem & _ & Ht & Hi & Hempty).
  simpl in *. subst evs.
  exists (mkWorld (mem w2)
            (trace w ++ [Invoked (Closure id (CSubsUnsubAll this))
                           (trace w2) None])), (trace w2).
  unfold record_call. simpl. rewrite Hrun.
  repeat split; auto. exists (mem w1). auto.
Qed.

(** The cleanup function of collector 1 sitting in the array of collector 0:
    it returns, at depth 1, and keeps [Demo.nested_inv]. *)
Lemma demo_nested_inv u m :
  Demo.nested_inv m -> Demo.nested_inv (snd (Demo.user u m)).
Proof.
  intros (Hf & Hb & Hu). split; [|split].
  - rewrite demo_subs_list. exact Hf.
  - apply demo_begins_with. exact Hb.
  - destruct u as [|[|u]]; simpl; try exact Hu.
    unfold upd. destruct (Nat.eqb_spec 1 (subs_list m 0)) as [<-|_].
    + apply Forall_app. split; [exact Hu|]. repeat constructor.
    + exact Hu.
Qed.

Lemma inner_cleanup_returns :
  returns_in Demo.nested_inv (call Demo.P 1) Demo.inner_cleanup.
Proof.
  intros w Hw. pose proof Hw as (Hf & Hb & Hu).
  destruct (call_Subs_cleanup Demo.P 0
              (fun m => Demo.nested_inv m /\ begins_with 1 (arrays (mem w) 1) m)
              300 1 w)
    as (w' & inner & Hcall & _ & _ & _ & m1 & [(Hf1 & Hb1 & _) _] & Hmem).
  - split; [exact Hw|]. exists []. rewrite app_nil_r. reflexivity.
  - rewrite Hf. intros m [_ Hm]. exact Hm.
  - rewrite Hf. apply user_list_cases; [exact Hu|].
    intros id u _. apply user_returns_in. intros m [Hm1 Hm2]. split.
    + apply demo_nested_inv. exact Hm1.
    + apply demo_begins_with. exact Hm2.
  - exists (Return tt), w'. split; [exact Hcall|].
    rewrite Hmem, Hf1. destruct Hb1 as [ext Hext].
    split; [exact Hf1|]. split; [exists ext; exact Hext|]. constructor.
Qed.

(** C3.  A collector whose array holds [k] functions: [Subs.unsubAll]
    returns normally; what it calls and logs is what [Subscribe.unsubAll]
    calls and logs on that array, one call per element, [k] calls, each raise
    logged; afterwards the array behind the [list] field has length 0; and
    the collector goes on working: a push then leaves exactly the pushed
    function in it.  This is for functions that return, under an invariant
    [I] of the store which keeps the array in place (appending to it is
    allowed). *)
Theorem Subs_unsubAll_flushes (P : Callers) (n : nat) (I : Mem -> Prop)
    (this : nat) (w : World) (k : nat) :
  List.length (arrays (mem w) (subs_list (mem w) this)) = k ->
  I (mem w) ->
  keeps_sequence I (Many (subs_list (mem w) this))
                 (arrays (mem w) (subs_list (mem w) this)) ->
  (forall a, In a (arrays (mem w) (subs_list (mem w) this)) ->
             returns_in I (call P n) a) ->
  exists w1 w' evs,
    Subscribe.unsubAll (call P n) (Many (subs_list (mem w) this)) w
      = Done (Return tt) w1 /\
    Subs.unsubAll (call P n) this w = Done (Return tt) w' /\
    trace w' = trace w1 /\
    trace w' = trace w ++ evs /\
    isolated (arrays (mem w) (subs_list (mem w) this)) evs /\
    List.length (callees evs) = k /\
    List.length (arrays (mem w') (subs_list (mem w') this)) = 0 /\
    forall f, exists w'',
      Subs.push this f w' = Done (Return tt) w'' /\
      arrays (mem w'') (subs_list (mem w'') this) = [f].
Proof.
  intros Hk Hw Hkeep HA.
  destruct (Subs_unsubAll_settled P n I this w Hw Hkeep HA)
    as (w1 & w' & evs & Hrun & _ & Hflush & _ & Ht1 & Ht & Hi & Hempty).
  exists w1, w', evs. repeat (split; [assumption|]).
  split; [rewrite (isolated_callees _ _ Hi); exact Hk|].
  split; [rewrite Hempty; reflexivity|].
  intros f. rewrite Subs_push_run. eexists. split; [reflexivity|].
  simpl. unfold upd. rewrite !Nat.eqb_refl, Hempty. reflexivity.
Qed.

Lemma Subs_unsubAll_flushes_witness :
  exists w1 w' evs,
    Subscribe.unsubAll (call Demo.P 0) (Many 0)
      (Demo.with_list [Demo.mark 3; Demo.boom; Demo.mark 4])
      = Done (Return tt) w1 /\
    Subs.unsubAll (call Demo.P 0) 0
      (Demo.with_list [Demo.mark 3; Demo.boom; Demo.mark 4])
      = Done (Return tt) w' /\
    trace w' = trace w1 /\
    trace w' = [] ++ evs /\
    isolated [Demo.mark 3; Demo.boom; Demo.mark 4] evs /\
    List.length (callees evs) = 3 /\
    List.length (arrays (mem w') (subs_list (mem w') 0)) = 0 /\
    forall f, exists w'',
      Subs.push 0 f w' = Done (Return tt) w'' /\
      arrays (mem w'') (subs_list (mem w'') 0) = [f].
Proof.
  apply (Subs_unsubAll_flushes Demo.P 0
           (begins_with 0 [Demo.mark 3; Demo.boom; Demo.mark 4]) 0
           (Demo.with_list [Demo.mark 3; Demo.boom; Demo.mark 4]) 3).
  - reflexivity.
  - exists []. reflexivity.
  - intros m Hm. exact Hm.
  - apply user_list_cases; [repeat constructor|].
    intros id u _. apply user_returns_in. apply demo_begins_with.
Defined.

(** The same statement at work on [Demo.nested], where one of the functions
    flushes another collector. *)
Lemma nested_flush_returns :
  exists w' evs,
    Subs.unsubAll (call Demo.P 1) 0 Demo.nested = Done (Return tt) w' /\
    trace w' = evs /\
    isolated [Demo.mark 3; Demo.inner_cleanup] evs /\
    arrays (mem w') 0 = [].
Proof.
  destruct (Subs_unsubAll_settled Demo.P 1 Demo.nested_inv 0 Demo.nested)
    as (_ & w' & evs & _ & _ & Hrun & _ & _ & Ht & Hi & Hempty).
  - split; [reflexivity|]. split; [exists []; reflexivity|].
    repeat constructor.
  - intros m (_ & Hm & _). exact Hm.
  - intros a [<-|[<-|[]]].
    + apply user_returns_in. apply demo_nested_inv.
    + apply inner_cleanup_returns.
  - exists w', evs. split; [exact Hrun|]. split; [exact Ht|].
    split; [exact Hi|].
    cbv in Hrun. inversion Hrun; subst w'. reflexivity.
Qed.

(** ** Order of the flush *)

Lemma push_all_run this fs :
  forall w, exists w',
    push_all this fs w = Done (Return tt) w' /\
    subs_list (mem w') this = subs_list (mem w) this /\
    arrays (mem w') (subs_list (mem w) this)
      = arrays (mem w) (subs_list (mem w) this) ++ fs /\
    trace w' = trace w.
Proof.
  induction fs as [|f fs IH]; intros w.
  - exists w. repeat split. symmetry. apply app_nil_r.
  - simpl. unfold bind at 1. rewrite Subs_push_run.
    destruct (IH (mkWorld (set_array (subs_list (mem w) this)
                             (arrays (mem w) (subs_list (mem w) this) ++ [f])
                             (mem w)) (trace w)))
      as (w' & Hrun & Hf & Harr & Ht).
    exists w'. simpl in *. split; [exact Hrun|]. split; [exact Hf|].
    split; [|exact Ht].
    rewrite Harr. unfold upd. rewrite Nat.eqb_refl, <- app_assoc. reflexivity.
Qed.

(** A call of [a] found among the top-level calls of a trace splits it. *)
Lemma callees_split evs :
  forall X a Y,
    callees evs = X ++ a :: Y ->
    exists t1 inner r t2,
      evs = t1 ++ Invoked a inner r :: t2 /\ callees t1 = X /\ callees t2 = Y.
Proof.
  induction evs as [|[f inner r|e] evs IH]; intros X a Y H; simpl in H.
  - destruct X; discriminate.
  - destruct X as [|x X]; simpl in H; inversion H; subst.
    + exists [], inner, r, evs. auto.
    + destruct (IH _ _ _ H2) as (t1 & i1 & r1 & t2 & -> & H1 & H3).
      exists (Invoked x inner r :: t1), i1, r1, t2. simpl. rewrite H1. auto.
  - destruct (IH _ _ _ H) as (t1 & i1 & r1 & t2 & -> & H1 & H3).
    exists (Logged e :: t1), i1, r1, t2. simpl. auto.
Qed.

(** C4.  When [s1] was pushed onto a collector before [s2] (with any pushes
    before, between and after), [Subs.unsubAll] calls [s1] strictly before
    [s2]: its trace is the calls of what the array held before [s1], then the
    call of [s1], then the calls of what was pushed in between, then the call
    of [s2], then the rest, which is the order of appending.  This is for
    functions that return, under an invariant [I] of the store which keeps
    the array in place. *)
Theorem flush_in_append_order (P : Callers) (n : nat) (I : Mem -> Prop)
    (this : nat) (w0 w : World) (s1 s2 : Fn) (l2 l3 : list Fn) :
  push_all this (s1 :: l2 ++ s2 :: l3) w0 = Done (Return tt) w ->
  I (mem w) ->
  keeps_sequence I (Many (subs_list (mem w) this))
                 (arrays (mem w) (subs_list (mem w) this)) ->
  (forall a, In a (arrays (mem w) (subs_list (mem w) this)) ->
             returns_in I (call P n) a) ->
  exists w' t1 i1 r1 t2 i2 r2 t3,
    Subs.unsubAll (call P n) this w = Done (Return tt) w' /\
    trace w' = trace w ++ t1 ++ Invoked s1 i1 r1 :: t2 ++ Invoked s2 i2 r2 :: t3 /\
    callees t1 = arrays (mem w0) (subs_list (mem w0) this) /\
    callees t2 = l2 /\
    callees t3 = l3.
Proof.
  intros Hpush Hw Hkeep HA.
  destruct (push_all_run this (s1 :: l2 ++ s2 :: l3) w0)
    as (w_ & Hrun & Hf & Harr & _).
  rewrite Hpush in Hrun. inversion Hrun; subst w_; clear Hrun.
  destruct (Subs_unsubAll_settled P n I this w Hw Hkeep HA)
    as (_ & w' & evs & _ & _ & Hflush & _ & _ & Ht & Hi & _).
  apply isolated_callees in Hi. rewrite Hf, Harr in Hi.
  destruct (callees_split _ _ _ _ Hi) as (t1 & i1 & r1 & rest & -> & H1 & Hrest).
  destruct (callees_split _ _ _ _ Hrest) as (t2 & i2 & r2 & t3 & -> & H2 & H3).
  exists w', t1, i1, r1, t2, i2, r2, t3. auto.
Qed.

Lemma flush_in_append_order_witness :
  exists w,
    push_all 0 (Demo.mark 3 :: [Demo.boom] ++ Demo.mark 4 :: [Demo.mark 5])
             (Demo.with_list [Demo.mark 2])
      = Done (Return tt) w /\
    exists w' t1 i1 r1 t2 i2 r2 t3,
      Subs.unsubAll (call Demo.P 0) 0 w = Done (Return tt) w' /\
      trace w' = trace w ++ t1 ++ Invoked (Demo.mark 3) i1 r1
                              :: t2 ++ Invoked (Demo.mark 4) i2 r2 :: t3 /\
      callees t1 = [Demo.mark 2] /\
      callees t2 = [Demo.boom] /\
      callees t3 = [Demo.mark 5].
Proof.
  eexists. split; [reflexivity|].
  apply (flush_in_append_order Demo.P 0
           (begins_with 0 [Demo.mark 2; Demo.mark 3; Demo.boom; Demo.mark 4;
                           Demo.mark 5])
           0 (Demo.with_list [Demo.mark 2])).
  - reflexivity.
  - exists []. reflexivity.
  - intros m Hm. exact Hm.
  - apply user_list_cases; [repeat constructor|].
    intros id u _. apply user_returns_in. apply demo_begins_with.
Defined.

(** ** Pushes made while the flush runs *)

Lemma forEach_from_trace_bound P n arr todo :
  forall k w c w',
    forEach_from
      (fun unsub => try_catch (call P n unsub) (fun e => console_error e))
      arr k todo w = Done c w' ->
    exists evs,
      trace w' = trace w ++ evs /\ List.length (callees evs) <= todo.
Proof.
  induction todo as [|todo IH]; intros k w c w' H; simpl in H.
  - inversion H; subst. exists []. rewrite app_nil_r. auto.
  - destruct (nth_error _ k) as [f|].
    + unfold bind, try_catch in H.
      destruct (call P n f w) as [[[]|e] w1|] eqn:Hc; simpl in H;
        try discriminate;
        destruct (call_trace _ _ _ _ _ _ Hc) as [inner Ht1];
        destruct (IH _ _ _ _ H) as (evs & Ht & Hlen); simpl in *.
      * exists (Invoked f inner None :: evs). split.
        -- rewrite Ht, Ht1, <- app_assoc. reflexivity.
        -- simpl. lia.
      * exists (Invoked f inner (Some e) :: Logged e :: evs). split.
        -- rewrite Ht, Ht1, <- !app_assoc. reflexivity.
        -- simpl. lia.
    + destruct (IH _ _ _ _ H) as (evs & Ht & Hlen).
      exists evs. split; [exact Ht|lia].
Qed.

(** C10.  First, whatever the functions do: when [Subs.unsubAll] returns it
    returns normally, the array behind [list] is empty, and it has made no
    more calls than the array held when it began.  Second, when the functions
    in the array return, under an invariant [I] that lets them push onto the
    collector and nothing more (the array keeps its beginning, the [list]
    field stays): the flush returns, calls exactly the functions the array
    held when it began, and what was pushed meanwhile sits in the array when
    the loop ends and is gone, never called by this flush, when the flush
    returns. *)
Theorem flush_discards_pushes_made_meanwhile (P : Callers) (n : nat)
    (I : Mem -> Prop) (this : nat) (w : World) :
  (forall c w',
     Subs.unsubAll (call P n) this w = Done c w' ->
     c = Return tt /\
     arrays (mem w') (subs_list (mem w') this) = [] /\
     exists evs,
       trace w' = trace w ++ evs /\
       List.length (callees evs)
         <= List.length (arrays (mem w) (subs_list (mem w) this)))
  /\
  (I (mem w) ->
   keeps_sequence I (Many (subs_list (mem w) this))
                  (arrays (mem w) (subs_list (mem w) this)) ->
   (forall m, I m -> subs_list m this = subs_list (mem w) this) ->
   (forall a, In a (arrays (mem w) (subs_list (mem w) this)) ->
              returns_in I (call P n) a) ->
   exists w1 w' evs ext,
     Subscribe.unsubAll (call P n) (Many (subs_list (mem w) this)) w
       = Done (Return tt) w1 /\
     arrays (mem w1) (subs_list (mem w) this)
       = arrays (mem w) (subs_list (mem w) this) ++ ext /\
     Subs.unsubAll (call P n) this w = Done (Return tt) w' /\
     trace w' = trace w ++ evs /\
     callees evs = arrays (mem w) (subs_list (mem w) this) /\
     subs_list (mem w') this = subs_list (mem w) this /\
     arrays (mem w') (subs_list (mem w) this) = []).
Proof.
  split.
  - intros c w'. rewrite Subs_unsubAll_unfold.
    destruct (Subscribe.unsubAll _ _ w) as [[[]|e] w1|] eqn:Hrun;
      try discriminate.
    + intros E. inversion E; subst; clear E. simpl.
      split; [reflexivity|]. split.
      * unfold upd. rewrite Nat.eqb_refl. reflexivity.
      * apply (forEach_from_trace_bound P n _ _ 0 w _ _ Hrun).
    + exfalso. exact (unsubAll_never_raises _ _ _ _ _ Hrun).
  - intros Hw Hkeep Hfield HA.
    destruct (Subs_unsubAll_settled P n I this w Hw Hkeep HA)
      as (w1 & w' & evs & Hrun & HI & Hflush & Hmem & _ & Ht & Hi & _).
    destruct (Hkeep _ HI) as [ext Hext].
    exists w1, w', evs, ext.
    split; [exact Hrun|]. split; [exact Hext|]. split; [exact Hflush|].
    split; [exact Ht|]. split; [exact (isolated_callees _ _ Hi)|].
    rewrite Hmem, (Hfield _ HI). simpl. unfold upd.
    rewrite Nat.eqb_refl, (Hfield _ HI). auto.
Qed.

Lemma flush_discards_pushes_made_meanwhile_witness :
  exists w1 w' evs,
    Subscribe.unsubAll (call Demo.P 0) (Many 0)
      (Demo.with_list [Demo.mark 3; Demo.pusher; Demo.mark 4])
      = Done (Return tt) w1 /\
    arrays (mem w1) 0
      = [Demo.mark 3; Demo.pusher; Demo.mark 4] ++ [Demo.pushed] /\
    Subs.unsubAll (call Demo.P 0) 0
      (Demo.with_list [Demo.mark 3; Demo.pusher; Demo.mark 4])
      = Done (Return tt) w' /\
    trace w' = [] ++ evs /\
    callees evs = [Demo.mark 3; Demo.pusher; Demo.mark 4] /\
    arrays (mem w') 0 = [].
Proof.
  destruct (proj2 (flush_discards_pushes_made_meanwhile Demo.P 0
                     (fun m => subs_list m 0 = 0 /\
                               begins_with 0 [Demo.mark 3; Demo.pusher;
                                              Demo.mark 4] m)
                     0
                     (Demo.with_list [Demo.mark 3; Demo.pusher; Demo.mark 4])))
    as (w1 & w' & evs & ext & H1 & H2 & H3 & H4 & H5 & _ & H7).
  - split; [reflexivity|]. exists []. reflexivity.
  - intros m [_ Hm]. exact Hm.
  - intros m [Hm _]. exact Hm.
  - apply user_list_cases; [repeat constructor|].
    intros id u _. apply user_returns_in. intros m [Hf Hm]. split.
    + rewrite demo_subs_list. exact Hf.
    + apply demo_begins_with. exact Hm.
  - exists w1, w', evs. repeat split; try assumption.
    cbv in H1. inversion H1; subst w1. exact eq_refl.
Defined.

(** ** Registrations through the collector *)

Lemma perform_appends P this r w :
  (forall s, r = RSubscribe s -> discreet P this s) ->
  exists f w',
    perform P this r w = Done (Return f) w' /\
    subs_list (mem w') this = subs_list (mem w) this /\
    arrays (mem w') (subs_list (mem w) this)
      = arrays (mem w) (subs_list (mem w) this) ++ [f].
Proof.
  intros Hd.
  destruct r as [s|em ev l|d ev l|h dl args|h dl args|f];
    try (do 2 eexists; split; [reflexivity|]; simpl; split; [reflexivity|];
         unfold upd; rewrite Nat.eqb_refl; reflexivity).
  2: { unfold perform, Subs.subscribeDOMEvent, Subscribe.subscribeDOMEvent,
         addEventListener, bind, modify. simpl.
       destruct (existsb _ _); do 2 eexists; (split; [reflexivity|]); simpl;
         (split; [reflexivity|]); unfold upd; rewrite Nat.eqb_refl;
         reflexivity. }
  destruct (Hd s eq_refl (mem w)) as [Hf Ha].
  unfold perform, Subs.subscribe, Subscribe.subscribe, bind, try_catch, lift.
  destruct (registrar P s (mem w)) as [[f|e] m1]; simpl in *;
    do 2 eexists; (split; [reflexivity|]); simpl; (split; [exact Hf|]);
    rewrite Hf; unfold upd; rewrite Nat.eqb_refl, Ha; reflexivity.
Qed.

(** A sequence of calls on the collector appends what the calls return. *)
Lemma perform_all_appends (P : Callers) (this : nat)
    (rs : list Registration) (w : World) :
  (forall s, In (RSubscribe s) rs -> discreet P this s) ->
  exists fs w',
    perform_all P this rs w = Done (Return fs) w' /\
    List.length fs = List.length rs /\
    subs_list (mem w') this = subs_list (mem w) this /\
    arrays (mem w') (subs_list (mem w) this)
      = arrays (mem w) (subs_list (mem w) this) ++ fs.
Proof.
  revert w. induction rs as [|r rs IH]; intros w Hd.
  - exists [], w. repeat split. symmetry. apply app_nil_r.
  - destruct (perform_appends P this r w) as (f & w1 & Hrun & Hf & Ha).
    { intros s ->. apply Hd. left. reflexivity. }
    destruct (IH w1 (fun s Hs => Hd s (or_intror Hs)))
      as (fs & w' & Hrun' & Hlen & Hf' & Ha').
    exists (f :: fs), w'. simpl. unfold bind. rewrite Hrun, Hrun'.
    split; [reflexivity|]. split; [simpl; lia|].
    split; [congruence|].
    rewrite Hf in Ha'. rewrite Ha', Ha, <- app_assoc. reflexivity.
Qed.

(** C7.  Every call of a registration method of a collector, or of [push],
    returns, and it appends to the collector's array exactly one function,
    the one it returns (for [push], the one pushed), leaving what was there
    in place; so after any sequence of such calls the array is what it was
    followed by the returned functions, one per call, in call order, and
    starting from an empty array it is exactly those.  (A function handed to
    [subscribe] is taken not to touch the collector itself.) *)
Theorem registrations_append_in_call_order (P : Callers) (this : nat)
    (rs : list Registration) (w : World) :
  (forall s, In (RSubscribe s) rs -> discreet P this s) ->
  exists fs w',
    perform_all P this rs w = Done (Return fs) w' /\
    List.length fs = List.length rs /\
    subs_list (mem w') this = subs_list (mem w) this /\
    arrays (mem w') (subs_list (mem w) this)
      = arrays (mem w) (subs_list (mem w) this) ++ fs /\
    (arrays (mem w) (subs_list (mem w) this) = [] ->
     arrays (mem w') (subs_list (mem w') this) = fs).
Proof.
  intros Hd.
  destruct (perform_all_appends P this rs w Hd) as (fs & w' & H1 & H2 & H3 & H4).
  exists fs, w'. repeat (split; [assumption|]).
  intros H0. rewrite H3, H4, H0. reflexivity.
Qed.

Lemma registrations_append_in_call_order_witness :
  exists fs w',
    perform_all Demo.P 0
      [RSubscribe 0; RSubscribe 3; RSubscribeEvent 1 "data" 5;
       RSubscribeDOMEvent 2 "click" 6; RSetTimeout 7 (Some 50%Z) [];
       RSetInterval 8 None [VNum 1]; RPush (Demo.mark 9)]
      Demo.w0
      = Done (Return fs) w' /\
    List.length fs = 7 /\
    subs_list (mem w') 0 = 0 /\
    arrays (mem w') 0 = [] ++ fs /\
    (@nil Fn = [] -> arrays (mem w') (subs_list (mem w') 0) = fs).
Proof.
  apply (registrations_append_in_call_order Demo.P 0
           [RSubscribe 0; RSubscribe 3; RSubscribeEvent 1 "data" 5;
            RSubscribeDOMEvent 2 "click" 6; RSetTimeout 7 (Some 50%Z) [];
            RSetInterval 8 None [VNum 1]; RPush (Demo.mark 9)]
           Demo.w0).
  intros s _ m. destruct s; split; reflexivity.
Defined.

(** ** Cleanup functions *)

(** Calling the function made by [Subscribe.createCleanup]. *)
Lemma call_cleanup P n (I : Mem -> Prop) id unsubs w :
  I (mem w) ->
  keeps_sequence I unsubs (sequence_of unsubs (mem w)) ->
  (forall a, In a (sequence_of unsubs (mem w)) -> returns_in I (call P n) a) ->
  exists w' inner,
    call P (S n) (Closure id (CUnsubAll unsubs)) w = Done (Return tt) w' /\
    trace w' = trace w ++ [Invoked (Closure id (CUnsubAll unsubs)) inner None] /\
    isolated (sequence_of unsubs (mem w)) inner /\
    I (mem w').
Proof.
  intros Hw Hkeep HA.
  destruct (unsubAll_settled P n I unsubs (mkWorld (mem w) []) Hw Hkeep HA)
    as (w1 & evs & Hrun & _ & Ht & Hi & HI).
  simpl in *. subst evs.
  exists (mkWorld (mem w1) (trace w ++ [Invoked (Closure id (CUnsubAll unsubs))
                                          (trace w1) None])), (trace w1).
  unfold record_call. simpl. rewrite Hrun. auto.
Qed.

(** C8.  [Subscribe.createCleanup(unsubs)] returns a new function whose call
    runs [Subscribe.unsubAll(unsubs)]; called twice, from any later world
    [wa], it runs it twice, and every element is called in the first run and
    again in the second: there is no guard against a second call and nothing
    is left out.  This is for elements that return, under an invariant [I]
    of the store which keeps the sequence as it is. *)
Theorem createCleanup_runs_on_every_call (P : Callers) (n : nat)
    (I : Mem -> Prop) (unsubs : Unsubs) (w wa : World) :
  I (mem wa) ->
  (forall m, I m -> sequence_of unsubs m = sequence_of unsubs (mem wa)) ->
  (forall a, In a (sequence_of unsubs (mem wa)) -> returns_in I (call P n) a) ->
  exists cleanup w0 wb wc inner1 inner2,
    Subscribe.createCleanup unsubs w = Done (Return cleanup) w0 /\
    (forall w1, call P (S n) cleanup w1
                = record_call cleanup (Subscribe.unsubAll (call P n) unsubs) w1) /\
    call P (S n) cleanup wa = Done (Return tt) wb /\
    call P (S n) cleanup wb = Done (Return tt) wc /\
    trace wc = trace wa ++ [Invoked cleanup inner1 None;
                            Invoked cleanup inner2 None] /\
    isolated (sequence_of unsubs (mem wa)) inner1 /\
    isolated (sequence_of unsubs (mem wa)) inner2.
Proof.
  intros Hwa Hsame HA.
  assert (Hkeep : forall wx, I (mem wx) ->
            keeps_sequence I unsubs (sequence_of unsubs (mem wx))).
  { intros wx Hwx m Hm. exists [].
    rewrite app_nil_r, (Hsame _ Hm), (Hsame _ Hwx). reflexivity. }
  destruct (call_cleanup P n I (next_fn (mem w)) unsubs wa Hwa (Hkeep _ Hwa) HA)
    as (wb & inner1 & Hb & Htb & Hib & HIb).
  destruct (call_cleanup P n I (next_fn (mem w)) unsubs wb HIb (Hkeep _ HIb))
    as (wc & inner2 & Hc & Htc & Hic & _).
  { rewrite (Hsame _ HIb). exact HA. }
  exists (Closure (next_fn (mem w)) (CUnsubAll unsubs)).
  eexists. exists wb, wc, inner1, inner2.
  split; [reflexivity|]. split; [reflexivity|].
  split; [exact Hb|]. split; [exact Hc|].
  rewrite (Hsame _ HIb) in Hic.
  split; [|split; assumption].
  rewrite Htc, Htb, <- app_assoc. reflexivity.
Qed.

Lemma createCleanup_runs_on_every_call_witness :
  exists cleanup w0 wb wc inner1 inner2,
    Subscribe.createCleanup (Many 0) (Demo.with_list [Demo.mark 3; Demo.boom])
      = Done (Return cleanup) w0 /\
    (forall w1, call Demo.P 1 cleanup w1
                = record_call cleanup
                    (Subscribe.unsubAll (call Demo.P 0) (Many 0)) w1) /\
    call Demo.P 1 cleanup w0 = Done (Return tt) wb /\
    call Demo.P 1 cleanup wb = Done (Return tt) wc /\
    trace wc = [] ++ [Invoked cleanup inner1 None;
                      Invoked cleanup inner2 None] /\
    isolated [Demo.mark 3; Demo.boom] inner1 /\
    isolated [Demo.mark 3; Demo.boom] inner2.
Proof.
  destruct (createCleanup_runs_on_every_call Demo.P 0
              (fun m => arrays m 0 = [Demo.mark 3; Demo.boom]) (Many 0)
              (Demo.with_list [Demo.mark 3; Demo.boom])
              (mkWorld (set_next_fn 1
                          (set_array 0 [Demo.mark 3; Demo.boom] Demo.m0)) []))
    as (cleanup & w0 & wb & wc & i1 & i2 & H1 & H2 & H3 & H4 & H5 & H6 & H7).
  - reflexivity.
  - intros m Hm. exact Hm.
  - apply user_list_cases; [repeat constructor|].
    intros id u Hin. apply user_returns_in. intros m Hm.
    rewrite demo_arrays; [exact Hm|].
    simpl in Hin. destruct Hin as [E|[E|[]]]; inversion E; discriminate.
  - exists cleanup, w0, wb, wc, i1, i2.
    split; [exact H1|]. split; [exact H2|].
    cbv in H1. inversion H1; subst cleanup w0. auto.
Defined.

(** The allocator of function objects only moves on: through the monad's
    operations, the host's, the loop, every closure's body, and every step a
    caller takes with a collector. *)
Lemma forward_ret {A : Type} (a : A) : forward (ret a).
Proof. intros w c w' H. inversion H; subst. lia. Qed.

Lemma forward_bind {A B : Type} (m : M A) (k : A -> M B) :
  forward m -> (forall a, forward (k a)) -> forward (bind m k).
Proof.
  intros Hm Hk w c w' H. unfold bind in H.
  destruct (m w) as [[a|e] w1|] eqn:E; [| |discriminate].
  - apply Hm in E. apply Hk in H. lia.
  - inversion H; subst. exact (Hm _ _ _ E).
Qed.

Lemma forward_try_catch {A : Type} (body : M A) (handler : Value -> M A) :
  forward body -> (forall e, forward (handler e)) ->
  forward (try_catch body handler).
Proof.
  intros Hb Hh w c w' H. unfold try_catch in H.
  destruct (body w) as [[a|e] w1|] eqn:E; [| |discriminate].
  - inversion H; subst. exact (Hb _ _ _ E).
  - apply Hb in E. apply Hh in H. lia.
Qed.

Lemma forward_read {A : Type} (f : Mem -> A) : forward (read f).
Proof. intros w c w' H. inversion H; subst. lia. Qed.

Lemma forward_modify (f : Mem -> Mem) :
  (forall m, next_fn m <= next_fn (f m)) -> forward (modify f).
Proof. intros Hf w c w' H. inversion H; subst. simpl. apply Hf. Qed.

Lemma forward_closure (c : Code) : forward (closure c).
Proof. intros w c' w' H. inversion H; subst. simpl. lia. Qed.

Lemma forward_console_error (e : Value) : forward (console_error e).
Proof. intros w c w' H. inversion H; subst. simpl. lia. Qed.

Lemma forward_lift {A : Type} (f : Mem -> Completion A * Mem) :
  (forall m, next_fn m <= next_fn (snd (f m))) -> forward (lift f).
Proof. intros Hf w c w' H. inversion H; subst. simpl. apply Hf. Qed.

Lemma forward_host_set_timer repeat handler delay arguments :
  forward (host_set_timer repeat handler delay arguments).
Proof. intros w c w' H. inversion H; subst. simpl. lia. Qed.

Lemma forward_push (this : nat) (f : Fn) : forward (Subs.push this f).
Proof.
  apply forward_bind; [apply forward_read|].
  intros l. apply forward_modify. intros m. simpl. lia.
Qed.

Lemma forward_record_call (f : Fn) (body : M unit) :
  forward body -> forward (record_call f body).
Proof.
  intros Hb w c w' H. unfold record_call in H.
  destruct (body (mkWorld (mem w) [])) as [[[]|e] w1|] eqn:E;
    [| |discriminate]; apply Hb in E; inversion H; subst; exact E.
Qed.

Lemma forward_forEach_from (callback : Fn -> M unit) (arr : nat) :
  (forall f, forward (callback f)) ->
  forall todo k, forward (forEach_from callback arr k todo).
Proof.
  intros Hcb todo. induction todo as [|todo IH]; intros k.
  - apply forward_ret.
  - intros w c w' H. cbn [forEach_from] in H.
    destruct (nth_error (arrays (mem w) arr) k) as [kValue|].
    + revert H. apply forward_bind; [apply Hcb|]. intros _. apply IH.
    + exact (IH _ _ _ _ H).
Qed.

Lemma forward_Subscribe_unsubAll (call : Fn -> M unit) (unsubs : Unsubs) :
  (forall f, forward (call f)) -> forward (Subscribe.unsubAll call unsubs).
Proof.
  intros Hcall.
  assert (Hguard : forall f,
            forward (try_catch (call f) (fun e => console_error e))).
  { intros f. apply forward_try_catch; [apply Hcall|].
    intros e. apply forward_console_error. }
  destruct unsubs as [f|arr]; simpl.
  - apply Hguard.
  - intros w c w' H. unfold forEach in H.
    exact (forward_forEach_from _ arr Hguard _ _ _ _ _ H).
Qed.

Lemma forward_Subs_unsubAll (call : Fn -> M unit) (this : nat) :
  (forall f, forward (call f)) -> forward (Subs.unsubAll call this).
Proof.
  intros Hcall. unfold Subs.unsubAll.
  apply forward_bind; [apply forward_read|]. intros l.
  apply forward_bind; [apply forward_Subscribe_unsubAll; exact Hcall|].
  intros _. apply forward_bind; [apply forward_read|]. intros l'.
  apply forward_bind; [apply forward_read|]. intros len.
  apply forward_modify. intros m. simpl. lia.
Qed.

Lemma forward_call (P : Callers) :
  (forall u m, next_fn m <= next_fn (snd (user_fn P u m))) ->
  forall n f, forward (call P n f).
Proof.
  intros Huser n. induction n as [|n IH]; intros [id c];
    destruct c; cbn [call code]; apply forward_record_call;
    try (apply forward_ret);
    try (apply forward_modify; intros m; simpl; lia);
    try (apply forward_lift; apply Huser);
    try (intros w c w' H; discriminate).
  - apply forward_Subscribe_unsubAll. exact IH.
  - apply forward_Subs_unsubAll. exact IH.
Qed.

Lemma forward_perform (P : Callers) (this : nat) (r : Registration) :
  (forall r m, next_fn m <= next_fn (snd (registrar P r m))) ->
  forward (perform P this r).
Proof.
  intros Hreg.
  assert (Hpush : forall unsub : Fn,
            forward (Subs.push this unsub ;; ret unsub)).
  { intros unsub. apply forward_bind; [apply forward_push|].
    intros _. apply forward_ret. }
  destruct r; cbn [perform].
  - apply forward_bind; [|exact Hpush].
    apply forward_try_catch; [apply forward_lift; apply Hreg|].
    intros e. apply forward_bind; [apply forward_console_error|].
    intros _. apply forward_closure.
  - apply forward_bind; [|exact Hpush].
    apply forward_bind; [|intros _; apply forward_closure].
    apply forward_modify. intros m. simpl. lia.
  - apply forward_bind; [|exact Hpush].
    apply forward_bind; [|intros _; apply forward_closure].
    apply forward_modify. intros m.
    destruct (existsb _ _); simpl; lia.
  - apply forward_bind; [apply forward_host_set_timer|]. intros t.
    apply forward_bind; [apply forward_closure|]. exact Hpush.
  - apply forward_bind; [apply forward_host_set_timer|]. intros t.
    apply forward_bind; [apply forward_closure|]. exact Hpush.
  - apply Hpush.
Qed.

Lemma forward_run_steps (P : Callers) (n : nat) (this : nat) :
  allocates_forward P ->
  forall steps, forward (run_steps P n this steps).
Proof.
  intros [Huser Hreg] steps. induction steps as [|s steps IH].
  - apply forward_ret.
  - cbn [run_steps]. apply forward_bind; [|intros _; exact IH].
    destruct s; cbn [run_step].
    + apply forward_bind; [apply forward_perform; exact Hreg|].
      intros _. apply forward_ret.
    + apply forward_Subs_unsubAll. apply forward_call. exact Huser.
    + apply forward_call. exact Huser.
    + apply forward_bind; [|intros _; apply forward_ret].
      intros w c w' H. inversion H; subst. simpl. lia.
Qed.

(** What [Subs.createCleanup] does to the store: the function it returns
    takes the allocator's next identity, and the allocator moves past it. *)
Lemma Subs_createCleanup_allocates (this : nat) (w : World) :
  exists f w0,
    Subs.createCleanup this w = Done (Return f) w0 /\
    fid f = next_fn (mem w) /\
    code f = CSubsUnsubAll this /\
    fid f < next_fn (mem w0).
Proof.
  unfold Subs.createCleanup, closure.
  eexists. eexists. split; [reflexivity|]. simpl. repeat split. lia.
Qed.

Lemma demo_allocates_forward : allocates_forward Demo.P.
Proof.
  split.
  - intros [|[|u]] m; simpl; lia.
  - intros [|r] m; simpl; lia.
Qed.

(** C9.  [Subs.createCleanup] returns a new function object at each call.
    The function [f] returned by one call, which leaves the world [w0], is
    different from the function returned by any call made from [w0] on: in
    any world whose allocator is where [w0] left it or further, and so after
    any steps a caller takes with the collector from [w0] (registrations,
    pushes, flushes, calls of functions, further cleanup functions), given
    callers that do not set the allocator back.  Both functions have the same
    body.  Whenever such a function is called, in whatever world [w1], it
    flushes the collector as it is then: it calls the functions the array
    holds in [w1], those pushed after the cleanup function was made included,
    and leaves the array empty.  The flush is for functions that return,
    under an invariant [I] of the store which keeps the array in place. *)
Theorem Subs_createCleanup_is_live (P : Callers) (n : nat) (I : Mem -> Prop)
    (this : nat) (w w1 : World) :
  I (mem w1) ->
  keeps_sequence I (Many (subs_list (mem w1) this))
                 (arrays (mem w1) (subs_list (mem w1) this)) ->
  (forall a, In a (arrays (mem w1) (subs_list (mem w1) this)) ->
             returns_in I (call P n) a) ->
  exists f w0 w' inner,
    Subs.createCleanup this w = Done (Return f) w0 /\
    (exists g w2, Subs.createCleanup this w0 = Done (Return g) w2 /\
                  g <> f /\ code g = code f) /\
    (forall wl, next_fn (mem w0) <= next_fn (mem wl) ->
       exists g w2, Subs.createCleanup this wl = Done (Return g) w2 /\
                    g <> f /\ code g = code f) /\
    (allocates_forward P ->
     forall steps c wl, run_steps P n this steps w0 = Done c wl ->
       exists g w2, Subs.createCleanup this wl = Done (Return g) w2 /\
                    g <> f /\ code g = code f) /\
    (forall w3, call P (S n) f w3
                = record_call f (Subs.unsubAll (call P n) this) w3) /\
    call P (S n) f w1 = Done (Return tt) w' /\
    trace w' = trace w1 ++ [Invoked f inner None] /\
    isolated (arrays (mem w1) (subs_list (mem w1) this)) inner /\
    arrays (mem w') (subs_list (mem w') this) = [].
Proof.
  intros Hw1 Hkeep HA.
  destruct (Subs_createCleanup_allocates this w)
    as (f & w0 & Hf & Hid & Hcode & Hnext).
  assert (Hlater : forall wl, next_fn (mem w0) <= next_fn (mem wl) ->
            exists g w2, Subs.createCleanup this wl = Done (Return g) w2 /\
                         g <> f /\ code g = code f).
  { intros wl Hwl.
    destruct (Subs_createCleanup_allocates this wl)
      as (g & w2 & Hg & Hgid & Hgcode & _).
    exists g, w2. split; [exact Hg|]. split.
    - intros E. subst g. lia.
    - congruence. }
  destruct f as [id c]. simpl in Hid, Hcode. subst c.
  destruct (call_Subs_cleanup P n I id this w1 Hw1 Hkeep HA)
    as (w' & inner & Hcall & Ht & Hi & Hempty & _).
  exists (Closure id (CSubsUnsubAll this)), w0, w', inner.
  split; [exact Hf|].
  split; [apply Hlater; lia|].
  split; [exact Hlater|].
  split.
  { intros HP steps c wl Hrun. apply Hlater.
    exact (forward_run_steps P n this HP steps _ _ _ Hrun). }
  split; [reflexivity|]. auto.
Qed.

Lemma Subs_createCleanup_is_live_witness :
  exists w1 f w0 g w2 w' inner,
    Subs.createCleanup 0 (Demo.with_list [Demo.mark 3]) = Done (Return f) w0 /\
    Subs.push 0 (Demo.mark 4) w0 = Done (Return tt) w1 /\
    Subs.createCleanup 0 w1 = Done (Return g) w2 /\
    g <> f /\
    code g = code f /\
    (forall w3, call Demo.P 1 f w3
                = record_call f (Subs.unsubAll (call Demo.P 0) 0) w3) /\
    call Demo.P 1 f w1 = Done (Return tt) w' /\
    trace w' = trace w1 ++ [Invoked f inner None] /\
    isolated [Demo.mark 3; Demo.mark 4] inner /\
    arrays (mem w') (subs_list (mem w') 0) = [].
Proof.
  exists (mkWorld (set_array 0 [Demo.mark 3; Demo.mark 4]
                     (set_next_fn 1 (set_array 0 [Demo.mark 3] Demo.m0))) []).
  destruct (Subs_createCleanup_is_live Demo.P 0
              (begins_with 0 [Demo.mark 3; Demo.mark 4]) 0
              (Demo.with_list [Demo.mark 3])
              (mkWorld (set_array 0 [Demo.mark 3; Demo.mark 4]
                          (set_next_fn 1 (set_array 0 [Demo.mark 3] Demo.m0)))
                       []))
    as (f & w0 & w' & inner & H1 & _ & _ & Hsteps & H5 & H6 & H7 & H8 & H9).
  - exists []. reflexivity.
  - intros m Hm. exact Hm.
  - apply user_list_cases; [repeat constructor|].
    intros id u _. apply user_returns_in. apply demo_begins_with.
  - specialize (Hsteps demo_allocates_forward
                       [SPerform (RPush (Demo.mark 4))] (Return tt)).
    cbv in H1. inversion H1; subst f w0.
    destruct (Hsteps _ eq_refl) as (g & w2 & Hg & Hne & Hcode).
    exists (Closure 0 (CSubsUnsubAll 0)). eexists. exists g, w2, w', inner.
    split; [reflexivity|]. split; [reflexivity|].
    split; [exact Hg|]. split; [exact Hne|]. split; [exact Hcode|].
    split; [exact H5|]. split; [exact H6|]. split; [exact H7|].
    split; [exact H8|exact H9].
Defined.

(** ** DOM registrations through the collector *)

(** C5, as stated, fails: with [options = true] (capture) the collector's
    method registers a non-capturing listener and its function detaches
    without options, where [Subscribe.subscribeDOMEvent] would register a
    capturing one. *)
Lemma Subs_subscribeDOMEvent_drops_options :
  ~ forwards_options 0 3 "click" 9 (Some (OptBool true)) Demo.w0.
Proof.
  intros (u1 & w1 & u2 & w2 & H1 & H2 & Ht & Hc).
  cbv in H1. inversion H1; subst u1 w1. discriminate Hc.
Qed.

(** C5, amended.  [Subs.subscribeDOMEvent] takes the DOM object, the event
    name and the listener, and no options.  It makes the registration that
    [Subscribe.subscribeDOMEvent] makes without options, returns the same
    function, whose call detaches without options too, and pushes that
    function onto its array. *)
Theorem Subs_subscribeDOMEvent_without_options (P : Callers) (n : nat)
    (this domObj : nat) (eventName : string) (listener : nat) (w : World) :
  exists unsub w1 w',
    Subscribe.subscribeDOMEvent domObj eventName listener None w
      = Done (Return unsub) w1 /\
    Subs.subscribeDOMEvent this domObj eventName listener w
      = Done (Return unsub) w' /\
    forwards_options this domObj eventName listener None w /\
    targets (mem w') = targets (mem w1) /\
    call P n unsub
      = record_call unsub
          (removeEventListener domObj eventName listener None) /\
    arrays (mem w') (subs_list (mem w) this)
      = arrays (mem w) (subs_list (mem w) this) ++ [unsub].
Proof.
  unfold forwards_options, Subs.subscribeDOMEvent,
    Subscribe.subscribeDOMEvent, addEventListener, bind, modify. simpl.
  destruct (existsb _ _);
    do 3 eexists; (split; [reflexivity|]); (split; [reflexivity|]);
    (split; [do 4 eexists; repeat split; reflexivity|]);
    (split; [reflexivity|]); (split; [destruct n; reflexivity|]);
    simpl; unfold upd; rewrite Nat.eqb_refl; reflexivity.
Qed.

(** ** Timers *)

(** What [Subscribe.setTimeout] and [Subscribe.setInterval] leave with the
    host: one more timer, one-shot or repeating, with the delay (0 when
    omitted) and with a single argument, the array [args]; the function
    returned clears that timer. *)
Lemma Subscribe_timer_scheduled handler delay args w :
  Subscribe.setTimeout handler delay args w
    = Done (Return (Closure (next_fn (mem w))
                            (CClearTimeout (next_timer (mem w)))))
           (with_mem
              (set_next_fn (S (next_fn (mem w)))
                 (set_timers
                    (timers (mem w) ++
                     [mkTimer (next_timer (mem w)) handler (timeout_of delay)
                              [VArr args] false])
                    (S (next_timer (mem w))) (mem w))) w) /\
  Subscribe.setInterval handler delay args w
    = Done (Return (Closure (next_fn (mem w))
                            (CClearInterval (next_timer (mem w)))))
           (with_mem
              (set_next_fn (S (next_fn (mem w)))
                 (set_timers
                    (timers (mem w) ++
                     [mkTimer (next_timer (mem w)) handler (timeout_of delay)
                              [VArr args] true])
                    (S (next_timer (mem w))) (mem w))) w).
Proof. split; reflexivity. Qed.

(** C6, on the code: [Subscribe.setTimeout(h, 100, 1, 2)] schedules a
    one-shot call after 100 ms which the returned function cancels, and with
    the delay omitted the timer is due after 0 ms; but when the timer fires
    the handler is called with one argument, the array [[1, 2]], not with
    the two arguments 1 and 2.  [Subscribe.setInterval] does the same with a
    repeating timer. *)
Theorem timer_args_arrive_as_one_array :
  (exists f w' w'',
     Subscribe.setTimeout 7 (Some 100%Z) [VNum 1; VNum 2] Demo.w0
       = Done (Return f) w' /\
     map tdelay (timers (mem w')) = [100%Z] /\
     fst (fire 0 (mem w')) = Some (7, [VArr [VNum 1; VNum 2]]) /\
     fst (fire 0 (mem w')) <> Some (7, [VNum 1; VNum 2]) /\
     timers (snd (fire 0 (mem w'))) = [] /\
     call Demo.P 0 f w' = Done (Return tt) w'' /\
     fst (fire 0 (mem w'')) = None) /\
  (exists f w' w'',
     Subscribe.setInterval 7 None [VNum 1; VNum 2] Demo.w0
       = Done (Return f) w' /\
     map tdelay (timers (mem w')) = [0%Z] /\
     fst (fire 0 (mem w')) = Some (7, [VArr [VNum 1; VNum 2]]) /\
     fst (fire 0 (mem w')) <> Some (7, [VNum 1; VNum 2]) /\
     List.length (timers (snd (fire 0 (mem w')))) = 1 /\
     call Demo.P 0 f w' = Done (Return tt) w'' /\
     fst (fire 0 (mem w'')) = None).
Proof.
  split; do 3 eexists; (split; [reflexivity|]); simpl;
    repeat split; try reflexivity; discriminate.
Qed.

(** ** Construction, re-entry, and three runs *)

(** A collector made without an argument starts with an empty array of its
    own; one made from an array shares it. *)
Lemma Subs_new_starts (list : option nat) (w : World) :
  exists this w0,
    Subs.new list w = Done (Return this) w0 /\
    match list with
    | None => arrays (mem w0) (subs_list (mem w0) this) = []
    | Some l => subs_list (mem w0) this = l /\ arrays (mem w0) l = arrays (mem w) l
    end.
Proof.
  destruct list as [l|]; do 2 eexists; (split; [reflexivity|]); simpl;
    unfold upd; rewrite !Nat.eqb_refl; auto.
Qed.

(** A collector whose array starts with its own cleanup function does not
    come back from a flush, at any depth of the bound: this is why the
    statements above ask that the functions return. *)
Lemma flush_of_own_cleanup_diverges P this id n :
  forall w rest,
    arrays (mem w) (subs_list (mem w) this)
      = Closure id (CSubsUnsubAll this) :: rest ->
    Subs.unsubAll (call P n) this w = Diverge.
Proof.
  induction n as [|n IH]; intros w rest Hw;
    rewrite Subs_unsubAll_unfold; unfold Subscribe.unsubAll, forEach;
    rewrite Hw; cbn [List.length forEach_from]; rewrite Hw; cbn [nth_error];
    unfold bind, try_catch; cbn [call code]; unfold record_call.
  - reflexivity.
  - rewrite (IH (mkWorld (mem w) []) rest Hw). reflexivity.
Qed.

(** Two pushed functions, the first raising "boom": the flush completes, the
    effect of the second is there, "boom" is logged and not raised. *)
Example flush_past_boom :
  match (push_all 0 [Demo.boom; Demo.mark 3] ;;
         Subs.unsubAll (call Demo.P 0) 0) Demo.w0 with
  | Done c w' =>
      c = Return tt /\
      userdata (mem w') = [VNum 3] /\
      trace w' = [Invoked Demo.boom [] (Some (VStr "boom"));
                  Logged (VStr "boom");
                  Invoked (Demo.mark 3) [] None] /\
      arrays (mem w') 0 = []
  | Diverge => False
  end.
Proof. cbv. repeat split. Qed.

(** [collector.setTimeout(fn, 50)] and a flush right after: the timer is
    gone before it fires. *)
Example flush_cancels_timeout :
  match (Subs.setTimeout 0 7 (Some 50%Z) [] ;;
         Subs.unsubAll (call Demo.P 0) 0) Demo.w0 with
  | Done c w' => c = Return tt /\ fst (fire 0 (mem w')) = None
  | Diverge => False
  end.
Proof. cbv. repeat split. Qed.

(** [collector.subscribeEvent(emitter, "data", cb)] attaches [cb]; the flush
    detaches it. *)
Example flush_detaches_listener :
  match Subs.subscribeEvent 0 1 "data" 5 Demo.w0 with
  | Done _ w1 =>
      emitters (mem w1) 1 = [("data", 5)] /\
      match Subs.unsubAll (call Demo.P 0) 0 w1 with
      | Done c w' => c = Return tt /\ emitters (mem w') 1 = []
      | Diverge => False
      end
  | Diverge => False
  end.
Proof. cbv. repeat split. Qed.

(** * Further properties of the code *)

(** ** One registration and its unsubscribe *)

Lemma remove_first_head {A : Type} (p : A -> bool) x l :
  p x = true -> remove_first p (x :: l) = l.
Proof. intros H. simpl. rewrite H. reflexivity. Qed.

Lemma same_listener_refl eventName listener :
  same_listener eventName listener (eventName, listener) = true.
Proof.
  unfold same_listener. simpl. rewrite String.eqb_refl, Nat.eqb_refl.
  reflexivity.
Qed.

Lemma upd_same {A : Type} (f : nat -> A) k v : upd f k v k = v.
Proof. unfold upd. rewrite Nat.eqb_refl. reflexivity. Qed.

Lemma upd_other {A : Type} (f : nat -> A) k v k' :
  k' <> k -> upd f k v k' = f k'.
Proof.
  intros H. unfold upd. destruct (Nat.eqb_spec k' k); [contradiction|].
  reflexivity.
Qed.

(** [Subscribe.subscribeEvent] followed by a call of the function it
    returns: the listener was appended to the emitter's list, and afterwards
    every emitter has the listeners it had, in the same order, also when the
    same listener was registered for the same event before. *)
Theorem subscribeEvent_round_trip (P : Callers) (n : nat)
    (eventEmitter : nat) (eventName : string) (listener : nat) (w : World) :
  exists unsub w1 w2,
    Subscribe.subscribeEvent eventEmitter eventName listener w
      = Done (Return unsub) w1 /\
    emitters (mem w1) eventEmitter
      = emitters (mem w) eventEmitter ++ [(eventName, listener)] /\
    call P n unsub w1 = Done (Return tt) w2 /\
    (forall e, emitters (mem w2) e = emitters (mem w) e) /\
    trace w2 = trace w ++ [Invoked unsub [] None].
Proof.
  do 3 eexists. split; [reflexivity|]. simpl.
  split; [apply upd_same|].
  split; [destruct n; reflexivity|].
  split; [|reflexivity]. intros e. simpl.
  destruct (Nat.eq_dec e eventEmitter) as [->|He].
  - rewrite !upd_same, rev_unit.
    rewrite (remove_first_head _ _ _ (same_listener_refl _ _)).
    apply rev_involutive.
  - rewrite !upd_other by exact He. reflexivity.
Qed.

Lemma same_dom_listener_refl eventName listener capture once passive :
  same_dom_listener eventName listener capture
    (mkDomListener eventName listener capture once passive) = true.
Proof.
  unfold same_dom_listener. simpl.
  rewrite String.eqb_refl, Nat.eqb_refl, Bool.eqb_reflx. reflexivity.
Qed.

Lemma filter_out_absent {A : Type} (p : A -> bool) (l : list A) :
  existsb p l = false -> filter (fun x => negb (p x)) l = l.
Proof.
  induction l as [|x l IH]; simpl; [reflexivity|].
  intros H. apply orb_false_iff in H. destruct H as [Hx Hl].
  rewrite Hx. simpl. rewrite IH by exact Hl. reflexivity.
Qed.

Lemma filter_out_gone {A : Type} (p : A -> bool) (l : list A) :
  existsb p (filter (fun x => negb (p x)) l) = false.
Proof.
  induction l as [|x l IH]; simpl; [reflexivity|].
  destruct (p x) eqn:Hx; simpl; [exact IH|]. rewrite Hx, IH. reflexivity.
Qed.

(** [Subscribe.subscribeDOMEvent] followed by a call of the function it
    returns.  After the registration a listener with this type, callback and
    capture flag is attached; after the call none is.  The target ends with
    the listeners it had, minus any registration with the same type, callback
    and capture flag: so it is as before when the listener was not attached
    that way, a registration that was there before is detached with it, and
    one with the other capture flag stays.  Other targets are as before. *)
Theorem subscribeDOMEvent_round_trip (P : Callers) (n : nat) (domObj : nat)
    (eventName : string) (listener : nat) (options : option ListenerOptions)
    (w : World) :
  let same := same_dom_listener eventName listener (capture_of options) in
  exists unsub w1 w2,
    Subscribe.subscribeDOMEvent domObj eventName listener options w
      = Done (Return unsub) w1 /\
    existsb same (targets (mem w1) domObj) = true /\
    call P n unsub w1 = Done (Return tt) w2 /\
    existsb same (targets (mem w2) domObj) = false /\
    targets (mem w2) domObj
      = filter (fun d => negb (same d)) (targets (mem w) domObj) /\
    (existsb same (targets (mem w) domObj) = false ->
     targets (mem w2) domObj = targets (mem w) domObj) /\
    (forall d, d <> domObj -> targets (mem w2) d = targets (mem w) d).
Proof.
  intros same.
  unfold Subscribe.subscribeDOMEvent, addEventListener, bind, modify, closure.
  simpl.
  destruct (existsb _ (targets (mem w) domObj)) eqn:Hthere; fold same in Hthere;
    do 3 eexists; (split; [reflexivity|]); simpl.
  - split; [exact Hthere|]. split; [destruct n; reflexivity|]. simpl.
    rewrite upd_same. fold same.
    split; [apply filter_out_gone|]. split; [reflexivity|].
    split; [discriminate|]. intros d Hd. apply upd_other. exact Hd.
  - rewrite upd_same. split.
    { rewrite existsb_app. simpl. unfold same at 2.
      rewrite same_dom_listener_refl. apply orb_true_r. }
    split; [destruct n; reflexivity|]. simpl. rewrite !upd_same. fold same.
    assert (E : filter (fun d => negb (same d))
                  (targets (mem w) domObj ++
                   [mkDomListener eventName listener (capture_of options)
                      (once_of options) (passive_of options)])
                = filter (fun d => negb (same d)) (targets (mem w) domObj)).
    { rewrite filter_app. simpl. unfold same at 2.
      rewrite same_dom_listener_refl. simpl. apply app_nil_r. }
    rewrite E. split; [apply filter_out_gone|]. split; [reflexivity|].
    split; [intros _; apply filter_out_absent; exact Hthere|].
    intros d Hd. rewrite !upd_other by exact Hd. reflexivity.
Qed.

Lemma find_app_absent {A : Type} (p : A -> bool) (l1 l2 : list A) :
  existsb p l1 = false -> find p (l1 ++ l2) = find p l2.
Proof.
  induction l1 as [|x l1 IH]; simpl; [reflexivity|].
  intros H. apply orb_false_iff in H. destruct H as [Hx Hl].
  rewrite Hx. apply IH. exact Hl.
Qed.

Lemma find_filter_gone {A : Type} (p : A -> bool) (l : list A) :
  find p (filter (fun x => negb (p x)) l) = None.
Proof.
  induction l as [|x l IH]; simpl; [reflexivity|].
  destruct (p x) eqn:Hx; simpl; [exact IH|]. rewrite Hx. exact IH.
Qed.

Lemma fresh_handle_absent (ts : list Timer) (h : nat) :
  Forall (fun t => tid t <> h) ts ->
  existsb (fun t => Nat.eqb (tid t) h) ts = false.
Proof.
  induction 1 as [|t ts Ht _ IH]; simpl; [reflexivity|].
  rewrite IH. destruct (Nat.eqb_spec (tid t) h); [contradiction|reflexivity].
Qed.

(** What both timer adapters do, by the kind of timer. *)
Lemma timer_round_trip (P : Callers) (n : nat) (repeat : bool)
    (handler : nat) (delay : option Z) (args : list Value) (w : World) :
  Forall (fun t => tid t <> next_timer (mem w)) (timers (mem w)) ->
  exists unsub w1 w2,
    (if repeat then Subscribe.setInterval handler delay args w
     else Subscribe.setTimeout handler delay args w)
      = Done (Return unsub) w1 /\
    fst (fire (next_timer (mem w)) (mem w1)) = Some (handler, [VArr args]) /\
    call P n unsub w1 = Done (Return tt) w2 /\
    timers (mem w2) = timers (mem w) /\
    fst (fire (next_timer (mem w)) (mem w2)) = None.
Proof.
  intros Hfresh. pose proof (fresh_handle_absent _ _ Hfresh) as Habs.
  assert (Hfilter : filter (fun t => negb (Nat.eqb (tid t) (next_timer (mem w))))
                      (timers (mem w) ++
                       [mkTimer (next_timer (mem w)) handler (timeout_of delay)
                                [VArr args] repeat])
                    = timers (mem w)).
  { rewrite filter_app. simpl. rewrite Nat.eqb_refl. simpl.
    rewrite app_nil_r. apply (filter_out_absent _ _ Habs). }
  destruct repeat; do 3 eexists; (split; [reflexivity|]); simpl;
    unfold fire; simpl; rewrite (find_app_absent _ _ _ Habs); simpl;
    rewrite Nat.eqb_refl; simpl; (split; [reflexivity|]);
    (split; [destruct n; reflexivity|]); simpl; rewrite Hfilter;
    (split; [reflexivity|]);
    rewrite <- (filter_out_absent _ _ Habs) at 1; rewrite find_filter_gone;
    reflexivity.
Qed.

(** [Subscribe.setTimeout] and [Subscribe.setInterval], each followed by a
    call of the function it returns, when the host's next handle is not the
    handle of a pending timer: the new timer was pending, with the handler
    and the array of arguments; after the call it is not, and the pending
    timers are exactly those there were before. *)
Theorem timers_round_trip (P : Callers) (n : nat) (handler : nat)
    (delay : option Z) (args : list Value) (w : World) :
  Forall (fun t => tid t <> next_timer (mem w)) (timers (mem w)) ->
  (exists unsub w1 w2,
     Subscribe.setTimeout handler delay args w = Done (Return unsub) w1 /\
     fst (fire (next_timer (mem w)) (mem w1)) = Some (handler, [VArr args]) /\
     call P n unsub w1 = Done (Return tt) w2 /\
     timers (mem w2) = timers (mem w) /\
     fst (fire (next_timer (mem w)) (mem w2)) = None) /\
  (exists unsub w1 w2,
     Subscribe.setInterval handler delay args w = Done (Return unsub) w1 /\
     fst (fire (next_timer (mem w)) (mem w1)) = Some (handler, [VArr args]) /\
     call P n unsub w1 = Done (Return tt) w2 /\
     timers (mem w2) = timers (mem w) /\
     fst (fire (next_timer (mem w)) (mem w2)) = None).
Proof.
  intros Hfresh. split.
  - exact (timer_round_trip P n false handler delay args w Hfresh).
  - exact (timer_round_trip P n true handler delay args w Hfresh).
Qed.

Lemma timers_round_trip_witness :
  (exists unsub w1 w2,
     Subscribe.setTimeout 7 (Some 50%Z) [VNum 1] Demo.w0
       = Done (Return unsub) w1 /\
     fst (fire 0 (mem w1)) = Some (7, [VArr [VNum 1]]) /\
     call Demo.P 0 unsub w1 = Done (Return tt) w2 /\
     timers (mem w2) = [] /\
     fst (fire 0 (mem w2)) = None) /\
  (exists unsub w1 w2,
     Subscribe.setInterval 7 (Some 50%Z) [VNum 1] Demo.w0
       = Done (Return unsub) w1 /\
     fst (fire 0 (mem w1)) = Some (7, [VArr [VNum 1]]) /\
     call Demo.P 0 unsub w1 = Done (Return tt) w2 /\
     timers (mem w2) = [] /\
     fst (fire 0 (mem w2)) = None).
Proof.
  apply (timers_round_trip Demo.P 0 7 (Some 50%Z) [VNum 1] Demo.w0).
  constructor.
Defined.

(** ** The collector's timer methods against the adapters *)

(** [Subs.setTimeout] and [Subs.setInterval] repeat the adapter's code
    instead of calling it; what they do is what [Subscribe.setTimeout] and
    [Subscribe.setInterval] do, followed by a push of the function
    returned, which is also the result. *)
Theorem Subs_timers_are_adapter_then_push (this : nat) (handler : nat)
    (delay : option Z) (args : list Value) (w : World) :
  Subs.setTimeout this handler delay args w
    = (unsub <- Subscribe.setTimeout handler delay args ;;
       Subs.push this unsub ;;
       ret unsub) w /\
  Subs.setInterval this handler delay args w
    = (unsub <- Subscribe.setInterval handler delay args ;;
       Subs.push this unsub ;;
       ret unsub) w.
Proof. split; reflexivity. Qed.

(** ** Collectors that hold the adapters' own closures *)

Lemma filter_all {A : Type} (p : A -> bool) (l : list A) :
  (forall x, p x = true) -> filter p l = l.
Proof.
  intros H. induction l as [|x l IH]; simpl; [reflexivity|].
  rewrite H, IH. reflexivity.
Qed.

Lemma without_handles_nil ts : without_handles [] ts = ts.
Proof. apply filter_all. reflexivity. Qed.

Lemma without_keys_nil ds : without_keys [] ds = ds.
Proof. apply filter_all. reflexivity. Qed.

Lemma without_handles_app hs1 hs2 ts :
  without_handles hs2 (without_handles hs1 ts) = without_handles (hs1 ++ hs2) ts.
Proof.
  unfold without_handles. induction ts as [|t ts IH]; simpl; [reflexivity|].
  rewrite existsb_app.
  destruct (existsb _ hs1); simpl; [exact IH|].
  destruct (existsb _ hs2); simpl; rewrite IH; reflexivity.
Qed.

Lemma without_keys_app ks1 ks2 ds :
  without_keys ks2 (without_keys ks1 ds) = without_keys (ks1 ++ ks2) ds.
Proof.
  unfold without_keys. induction ds as [|d ds IH]; simpl; [reflexivity|].
  rewrite existsb_app.
  destruct (existsb _ ks1); simpl; [exact IH|].
  destruct (existsb _ ks2); simpl; rewrite IH; reflexivity.
Qed.

Lemma without_handles_one h ts :
  filter (fun t => negb (Nat.eqb (tid t) h)) ts = without_handles [h] ts.
Proof.
  apply filter_ext. intros t. simpl. rewrite orb_false_r. reflexivity.
Qed.

Lemma without_keys_one eventName listener capture ds :
  filter (fun d => negb (same_dom_listener eventName listener capture d)) ds
  = without_keys [(eventName, listener, capture)] ds.
Proof.
  apply filter_ext. intros d. unfold matches_key. simpl.
  rewrite orb_false_r. reflexivity.
Qed.

(** One call of an adapter closure: it returns normally, does nothing the
    trace sees, leaves arrays, fields and the caller's data alone, and
    removes from the host exactly what it names. *)
Lemma adapter_call P n f w :
  is_adapter_closure f ->
  exists w1,
    call P n f w = Done (Return tt) w1 /\
    trace w1 = trace w ++ [Invoked f [] None] /\
    arrays (mem w1) = arrays (mem w) /\
    subs_list (mem w1) = subs_list (mem w) /\
    userdata (mem w1) = userdata (mem w) /\
    timers (mem w1) = without_handles (cleared_handle f) (timers (mem w)) /\
    (forall d, targets (mem w1) d
               = without_keys (detached_from d f) (targets (mem w) d)) /\
    (forall e, emitters (mem w1) e
               = remove_each (removed_from e f) (emitters (mem w) e)).
Proof.
  destruct f as [id c]. unfold is_adapter_closure. simpl.
  destruct c; intros Hc; try contradiction;
    eexists; (split; [destruct n; reflexivity|]); simpl;
    unfold cleared_handle, detached_from, removed_from; simpl;
    repeat (split; [reflexivity|]).
  - (* CNoop *)
    split; [symmetry; apply without_handles_nil|].
    split; [intros d; symmetry; apply without_keys_nil|reflexivity].
  - (* CRemoveListener *)
    split; [symmetry; apply without_handles_nil|].
    split; [intros d; symmetry; apply without_keys_nil|].
    intros e. unfold upd. rewrite (Nat.eqb_sym e eventEmitter).
    destruct (Nat.eqb_spec eventEmitter e) as [->|_]; reflexivity.
  - (* CRemoveEventListener *)
    split; [symmetry; apply without_handles_nil|].
    split; [|reflexivity].
    intros d. unfold upd. rewrite (Nat.eqb_sym d domObj).
    destruct (Nat.eqb_spec domObj d) as [->|_].
    + apply without_keys_one.
    + symmetry. apply without_keys_nil.
  - (* CClearTimeout *)
    split; [apply without_handles_one|].
    split; [intros d; symmetry; apply without_keys_nil|reflexivity].
  - (* CClearInterval *)
    split; [apply without_handles_one|].
    split; [intros d; symmetry; apply without_keys_nil|reflexivity].
Qed.

(** Calling a list of adapter closures in order. *)
Lemma invoke_each_adapters P n fs :
  Forall is_adapter_closure fs ->
  forall w, exists w',
    invoke_each (call P n) fs w = Done (Return tt) w' /\
    trace w' = trace w ++ quiet_calls fs /\
    arrays (mem w') = arrays (mem w) /\
    subs_list (mem w') = subs_list (mem w) /\
    userdata (mem w') = userdata (mem w) /\
    timers (mem w') = without_handles (cleared_handles fs) (timers (mem w)) /\
    (forall d, targets (mem w') d
               = without_keys (detached_keys d fs) (targets (mem w) d)) /\
    (forall e, emitters (mem w') e
               = remove_each (removed_keys e fs) (emitters (mem w) e)).
Proof.
  induction 1 as [|f fs Hf _ IH]; intros w.
  - exists w. split; [reflexivity|]. simpl. rewrite app_nil_r.
    repeat (split; [reflexivity|]).
    split; [symmetry; apply without_handles_nil|].
    split; [intros d; symmetry; apply without_keys_nil|reflexivity].
  - destruct (adapter_call P n f w Hf)
      as (w1 & Hc & Ht & Ha & Hs & Hu & Htm & Htg & Hem).
    rewrite (invoke_each_cons _ _ _ _ _ _ Hc). simpl after_guard.
    destruct (IH w1) as (w' & Hrun & Ht' & Ha' & Hs' & Hu' & Htm' & Htg' & Hem').
    exists w'. split; [exact Hrun|].
    split; [rewrite Ht', Ht, <- app_assoc; reflexivity|].
    split; [congruence|]. split; [congruence|]. split; [congruence|].
    split; [rewrite Htm', Htm; apply without_handles_app|].
    split.
    + intros d. rewrite Htg', Htg. apply without_keys_app.
    + intros e. rewrite Hem', Hem. unfold remove_each, removed_keys. simpl.
      rewrite fold_left_app. reflexivity.
Qed.

(** A collector that holds nothing but closures made by the adapters. *)
Lemma Subs_unsubAll_adapters P n this w :
  Forall is_adapter_closure (arrays (mem w) (subs_list (mem w) this)) ->
  exists w1 w',
    invoke_each (call P n) (arrays (mem w) (subs_list (mem w) this)) w
      = Done (Return tt) w1 /\
    Subs.unsubAll (call P n) this w = Done (Return tt) w' /\
    trace w' = trace w1 /\
    mem w' = set_array (subs_list (mem w) this) [] (mem w1).
Proof.
  intros HA.
  set (I := fun m => arrays m = arrays (mem w) /\
                     subs_list m = subs_list (mem w)).
  assert (HI : about_collectors I).
  { intros m m' Ha Hs [H1 H2]. split; congruence. }
  destruct (Subs_unsubAll_settled P n I this w)
    as (w1 & w' & evs & Hloop & [_ HI2] & Hflush & Hmem & Ht & _).
  - split; reflexivity.
  - intros m [Hm _]. exists []. simpl. rewrite app_nil_r, Hm. reflexivity.
  - intros a Ha. apply adapter_returns_in; [exact HI|].
    rewrite Forall_forall in HA. apply HA. exact Ha.
  - destruct (unsubAll_settled P n I (Many (subs_list (mem w) this)) w)
      as (w1' & _ & Hloop' & Hseq & _).
    + split; reflexivity.
    + intros m [Hm _]. exists []. simpl. rewrite app_nil_r, Hm. reflexivity.
    + intros a Ha. apply adapter_returns_in; [exact HI|].
      rewrite Forall_forall in HA. apply HA. exact Ha.
    + rewrite Hloop in Hloop'. inversion Hloop'; subst w1'.
      exists w1, w'. rewrite HI2 in Hmem. auto.
Qed.

(** The flush of a collector that holds only adapter closures, with all its
    effects. *)
Lemma Subs_unsubAll_adapters_effects (P : Callers) (n : nat) (this : nat) (w : World) :
  Forall is_adapter_closure (arrays (mem w) (subs_list (mem w) this)) ->
  exists w',
    Subs.unsubAll (call P n) this w = Done (Return tt) w' /\
    trace w' = trace w ++ quiet_calls (arrays (mem w) (subs_list (mem w) this)) /\
    arrays (mem w') (subs_list (mem w') this) = [] /\
    subs_list (mem w') = subs_list (mem w) /\
    (forall l, l <> subs_list (mem w) this ->
               arrays (mem w') l = arrays (mem w) l) /\
    userdata (mem w') = userdata (mem w) /\
    timers (mem w')
      = without_handles
          (cleared_handles (arrays (mem w) (subs_list (mem w) this)))
          (timers (mem w)) /\
    (forall d,
       targets (mem w') d
       = without_keys
           (detached_keys d (arrays (mem w) (subs_list (mem w) this)))
           (targets (mem w) d)) /\
    (forall e,
       emitters (mem w') e
       = remove_each
           (removed_keys e (arrays (mem w) (subs_list (mem w) this)))
           (emitters (mem w) e)).
Proof.
  intros HA.
  destruct (Subs_unsubAll_adapters P n this w HA)
    as (w1 & w' & Hseq & Hflush & Ht & Hmem).
  destruct (invoke_each_adapters P n _ HA w)
    as (w1' & Hseq' & Ht' & Ha' & Hs' & Hu' & Htm' & Htg' & Hem').
  rewrite Hseq in Hseq'. inversion Hseq'; subst w1'.
  exists w'. split; [exact Hflush|]. rewrite Hmem, Ht. simpl.
  split; [exact Ht'|]. rewrite Hs'.
  split; [apply upd_same|]. split; [reflexivity|].
  split; [intros l Hl; rewrite upd_other by exact Hl; rewrite Ha'; reflexivity|].
  auto.
Qed.

(** A collector whose array holds only closures made by the adapters (the
    functions returned by [subscribeEvent], [subscribeDOMEvent],
    [setTimeout], [setInterval], and the no-op of a failed [subscribe]): at
    any depth the flush returns; it calls each function once, in order;
    nothing raises and nothing is logged; the collector's array ends empty
    and every other array, every [list] field and the caller's data are
    untouched; the host loses exactly the timers, DOM registrations and
    emitter listeners the functions name. *)
Theorem adapters_flush_cleanly (P : Callers) (n : nat) (this : nat) (w : World) :
  Forall is_adapter_closure (arrays (mem w) (subs_list (mem w) this)) ->
  exists w',
    Subs.unsubAll (call P n) this w = Done (Return tt) w' /\
    trace w' = trace w ++ quiet_calls (arrays (mem w) (subs_list (mem w) this)) /\
    arrays (mem w') (subs_list (mem w') this) = [] /\
    subs_list (mem w') = subs_list (mem w) /\
    (forall l, l <> subs_list (mem w) this ->
               arrays (mem w') l = arrays (mem w) l) /\
    userdata (mem w') = userdata (mem w) /\
    timers (mem w')
      = without_handles
          (cleared_handles (arrays (mem w) (subs_list (mem w) this)))
          (timers (mem w)) /\
    (forall d,
       targets (mem w') d
       = without_keys
           (detached_keys d (arrays (mem w) (subs_list (mem w) this)))
           (targets (mem w) d)) /\
    (forall e,
       emitters (mem w') e
       = remove_each
           (removed_keys e (arrays (mem w) (subs_list (mem w) this)))
           (emitters (mem w) e)).
Proof.
  intros HA.
  destruct (Subs_unsubAll_adapters_effects P n this w HA) as (w' & Hw').
  exists w'. exact Hw'.
Qed.

Lemma adapters_flush_cleanly_witness :
  exists w',
    Subs.unsubAll (call Demo.P 0) 0
      (mkWorld (set_timers [mkTimer 4 7 0%Z [] false; mkTimer 5 8 0%Z [] true] 6
                  (set_array 0 [Closure 0 CNoop; Closure 1 (CClearTimeout 4)]
                             Demo.m0)) [])
      = Done (Return tt) w' /\
    trace w' = [] ++ quiet_calls [Closure 0 CNoop; Closure 1 (CClearTimeout 4)] /\
    arrays (mem w') (subs_list (mem w') 0) = [] /\
    timers (mem w') = [mkTimer 5 8 0%Z [] true].
Proof.
  destruct (adapters_flush_cleanly Demo.P 0 0
              (mkWorld (set_timers [mkTimer 4 7 0%Z [] false;
                                    mkTimer 5 8 0%Z [] true] 6
                          (set_array 0 [Closure 0 CNoop;
                                        Closure 1 (CClearTimeout 4)]
                                     Demo.m0)) []))
    as (w' & H1 & H2 & H3 & _ & _ & _ & H7 & _).
  - repeat constructor.
  - exists w'. auto.
Defined.

(** ** Registrations through a collector, then a flush *)

(** One adapter registration through a collector. *)
Lemma perform_adapter P this r w :
  is_adapter_registration r ->
  exists f w1,
    perform P this r w = Done (Return f) w1 /\
    is_adapter_closure f /\
    fid f = next_fn (mem w) /\
    next_fn (mem w1) = S (next_fn (mem w)) /\
    subs_list (mem w1) = subs_list (mem w) /\
    arrays (mem w1) (subs_list (mem w) this)
      = arrays (mem w) (subs_list (mem w) this) ++ [f] /\
    trace w1 = trace w /\
    next_timer (mem w) <= next_timer (mem w1) /\
    (exists ts,
       timers (mem w1) = timers (mem w) ++ ts /\
       map tid ts = cleared_handle f /\
       Forall (fun t => next_timer (mem w) <= tid t) ts) /\
    (forall e, emitters (mem w1) e = emitters (mem w) e ++ removed_from e f) /\
    (forall d, exists N,
       targets (mem w1) d = targets (mem w) d ++ N /\
       Forall (fun x => existsb (matches_key x) (detached_from d f) = true) N).
Proof.
  destruct r as [s|em ev l|d0 ev l|h dl args|h dl args|f]; simpl;
    intros Hr; try contradiction.
  - (* subscribeEvent *)
    do 2 eexists. split; [reflexivity|]. simpl.
    split; [exact Logic.I|]. do 3 (split; [reflexivity|]).
    split; [apply upd_same|]. split; [reflexivity|]. split; [lia|].
    split; [exists []; rewrite app_nil_r; repeat split; constructor|].
    split.
    + intros e. unfold removed_from, upd. simpl. rewrite (Nat.eqb_sym e em).
      destruct (Nat.eqb_spec em e) as [->|_];
        [reflexivity|rewrite app_nil_r; reflexivity].
    + intros d. exists []. rewrite app_nil_r. split; [reflexivity|constructor].
  - (* subscribeDOMEvent *)
    unfold Subs.subscribeDOMEvent, Subscribe.subscribeDOMEvent,
      addEventListener, bind, modify. simpl.
    destruct (existsb _ (targets (mem w) d0)) eqn:Hthere;
      do 2 eexists; (split; [reflexivity|]); simpl;
      (split; [exact Logic.I|]); do 3 (split; [reflexivity|]);
      (split; [apply upd_same|]); (split; [reflexivity|]); (split; [lia|]);
      (split; [exists []; rewrite app_nil_r; repeat split; constructor|]);
      (split; [intros e; rewrite app_nil_r; reflexivity|]).
    + intros d. exists []. rewrite app_nil_r. split; [reflexivity|constructor].
    + intros d. unfold detached_from, upd. simpl. rewrite (Nat.eqb_sym d d0).
      destruct (Nat.eqb_spec d0 d) as [->|_].
      * eexists. split; [reflexivity|]. constructor; [|constructor].
        simpl. unfold matches_key. simpl.
        rewrite same_dom_listener_refl. reflexivity.
      * exists []. rewrite app_nil_r. split; [reflexivity|constructor].
  - (* setTimeout *)
    do 2 eexists. split; [reflexivity|]. simpl.
    split; [exact Logic.I|]. do 3 (split; [reflexivity|]).
    split; [apply upd_same|]. split; [reflexivity|]. split; [lia|].
    split; [eexists; split; [reflexivity|]; split;
            [reflexivity|repeat constructor]|].
    split; [intros e; rewrite app_nil_r; reflexivity|].
    intros d. exists []. rewrite app_nil_r. split; [reflexivity|constructor].
  - (* setInterval *)
    do 2 eexists. split; [reflexivity|]. simpl.
    split; [exact Logic.I|]. do 3 (split; [reflexivity|]).
    split; [apply upd_same|]. split; [reflexivity|]. split; [lia|].
    split; [eexists; split; [reflexivity|]; split;
            [reflexivity|repeat constructor]|].
    split; [intros e; rewrite app_nil_r; reflexivity|].
    intros d. exists []. rewrite app_nil_r. split; [reflexivity|constructor].
Qed.

Lemma existsb_app_l {A : Type} (p : A -> bool) l1 l2 :
  existsb p l1 = true -> existsb p (l1 ++ l2) = true.
Proof. intros H. rewrite existsb_app, H. reflexivity. Qed.

Lemma existsb_app_r {A : Type} (p : A -> bool) l1 l2 :
  existsb p l2 = true -> existsb p (l1 ++ l2) = true.
Proof. intros H. rewrite existsb_app, H. apply orb_true_r. Qed.

(** A sequence of adapter registrations through a collector: the functions
    returned, the array, and what the host holds afterwards. *)
Lemma perform_all_adapters P this rs :
  Forall is_adapter_registration rs ->
  forall w, exists fs w1,
    perform_all P this rs w = Done (Return fs) w1 /\
    Forall is_adapter_closure fs /\
    map fid fs = seq (next_fn (mem w)) (List.length rs) /\
    subs_list (mem w1) = subs_list (mem w) /\
    arrays (mem w1) (subs_list (mem w) this)
      = arrays (mem w) (subs_list (mem w) this) ++ fs /\
    trace w1 = trace w /\
    next_timer (mem w) <= next_timer (mem w1) /\
    (exists ts,
       timers (mem w1) = timers (mem w) ++ ts /\
       map tid ts = cleared_handles fs /\
       Forall (fun t => next_timer (mem w) <= tid t) ts) /\
    (forall e, emitters (mem w1) e = emitters (mem w) e ++ removed_keys e fs) /\
    (forall d, exists N,
       targets (mem w1) d = targets (mem w) d ++ N /\
       Forall (fun x => existsb (matches_key x) (detached_keys d fs) = true) N).
Proof.
  induction 1 as [|r rs Hr _ IH]; intros w.
  - exists [], w. split; [reflexivity|]. simpl.
    split; [constructor|]. do 2 (split; [reflexivity|]).
    split; [symmetry; apply app_nil_r|]. split; [reflexivity|]. split; [lia|].
    split; [exists []; rewrite app_nil_r; repeat split; constructor|].
    split; [intros e; symmetry; apply app_nil_r|].
    intros d. exists []. rewrite app_nil_r. split; [reflexivity|constructor].
  - destruct (perform_adapter P this r w Hr)
      as (f & w1 & Hrun & Hf & Hid & Hnf & Hs & Ha & Ht & Hnt
          & (ts1 & Htm & Hh & Hts) & Hem & Htg).
    destruct (IH w1)
      as (fs & w2 & Hrun' & Hfs & Hids & Hs' & Ha' & Ht' & Hnt'
          & (ts2 & Htm' & Hh' & Hts') & Hem' & Htg').
    exists (f :: fs), w2. simpl. unfold bind. rewrite Hrun, Hrun'.
    split; [reflexivity|]. split; [constructor; assumption|].
    split; [simpl; rewrite Hid, Hids, Hnf; reflexivity|].
    split; [congruence|].
    split; [rewrite Hs in Ha'; rewrite Ha', Ha, <- app_assoc; reflexivity|].
    split; [congruence|]. split; [lia|].
    split.
    { exists (ts1 ++ ts2).
      split; [rewrite Htm', Htm, app_assoc; reflexivity|].
      split; [rewrite map_app, Hh, Hh'; reflexivity|].
      apply Forall_app. split; [exact Hts|].
      eapply Forall_impl; [|exact Hts']. simpl. intros t Ht0. lia. }
    split.
    { intros e. rewrite Hem', Hem, <- app_assoc. reflexivity. }
    intros d. destruct (Htg d) as (N1 & HN1 & HF1).
    destruct (Htg' d) as (N2 & HN2 & HF2).
    exists (N1 ++ N2). split; [rewrite HN2, HN1, app_assoc; reflexivity|].
    unfold detached_keys. simpl. apply Forall_app. split.
    + eapply Forall_impl; [|exact HF1]. intros x. apply existsb_app_l.
    + eapply Forall_impl; [|exact HF2]. intros x. apply existsb_app_r.
Qed.

Lemma without_keys_all_matched ks N :
  Forall (fun x => existsb (matches_key x) ks = true) N -> without_keys ks N = [].
Proof.
  induction 1 as [|x N Hx _ IH]; simpl; [reflexivity|].
  rewrite Hx. simpl. exact IH.
Qed.

Lemma without_keys_none_matched ks ds :
  Forall (fun x => existsb (matches_key x) ks = false) ds ->
  without_keys ks ds = ds.
Proof.
  induction 1 as [|x ds Hx _ IH]; simpl; [reflexivity|].
  rewrite Hx. simpl. rewrite IH. reflexivity.
Qed.

Lemma without_handles_older nt hs ts :
  Forall (fun h => nt <= h) hs ->
  Forall (fun t => tid t < nt) ts ->
  without_handles hs ts = ts.
Proof.
  intros Hhs. induction 1 as [|t ts Ht _ IH]; simpl; [reflexivity|].
  assert (E : existsb (Nat.eqb (tid t)) hs = false).
  { clear IH. induction Hhs as [|h hs Hh _ IH']; simpl; [reflexivity|].
    rewrite IH'. destruct (Nat.eqb_spec (tid t) h); [lia|reflexivity]. }
  rewrite E. simpl. rewrite IH. reflexivity.
Qed.

Lemma without_handles_own hs ts :
  incl (map tid ts) hs -> without_handles hs ts = [].
Proof.
  induction ts as [|t ts IH]; simpl; intros Hin; [reflexivity|].
  assert (E : existsb (Nat.eqb (tid t)) hs = true).
  { apply existsb_exists. exists (tid t). split.
    - apply Hin. left. reflexivity.
    - apply Nat.eqb_refl. }
  rewrite E. simpl. apply IH. intros h Hh. apply Hin. right. exact Hh.
Qed.

Lemma same_listener_iff k x :
  same_listener (fst k) (snd k) x = true <-> x = k.
Proof.
  destruct k as [ev l], x as [ev' l']. unfold same_listener. simpl.
  rewrite andb_true_iff, String.eqb_eq, Nat.eqb_eq. split.
  - intros [-> ->]. reflexivity.
  - intros E. inversion E. auto.
Qed.

Lemma remove_first_app_in {A : Type} (p : A -> bool) l1 l2 :
  existsb p l1 = true -> remove_first p (l1 ++ l2) = remove_first p l1 ++ l2.
Proof.
  induction l1 as [|x l1 IH]; simpl; [discriminate|].
  destruct (p x); simpl; [reflexivity|]. intros H. rewrite IH by exact H.
  reflexivity.
Qed.

Lemma remove_first_perm k (l : list (string * nat)) :
  In k l ->
  Permutation l
    (k :: remove_first (same_listener (fst k) (snd k)) l).
Proof.
  induction l as [|x l IH]; simpl; [contradiction|].
  destruct (same_listener (fst k) (snd k) x) eqn:Hx.
  - apply same_listener_iff in Hx. subst x. intros _.
    apply Permutation_refl.
  - intros [E|Hin].
    + subst x. rewrite (proj2 (same_listener_iff k k) eq_refl) in Hx.
      discriminate.
    + eapply perm_trans;
        [apply perm_skip, IH, Hin|apply perm_swap].
Qed.

(** Removing the last registration of [k] from a list that ends with a
    stretch [N] holding [k] takes it out of that stretch. *)
Lemma remove_last_in k old N :
  In k N ->
  exists N',
    remove_last k (old ++ N) = old ++ N' /\
    Permutation N (k :: N').
Proof.
  intros Hin. unfold remove_last. rewrite rev_app_distr.
  assert (E : existsb (same_listener (fst k) (snd k)) (rev N) = true).
  { apply existsb_exists. exists k. split.
    - apply in_rev in Hin. exact Hin.
    - apply same_listener_iff. reflexivity. }
  rewrite (remove_first_app_in _ _ _ E), rev_app_distr, rev_involutive.
  eexists. split; [reflexivity|].
  eapply perm_trans; [apply Permutation_rev|].
  eapply perm_trans;
    [apply remove_first_perm, in_rev; rewrite rev_involutive; exact Hin|].
  apply perm_skip. apply Permutation_rev.
Qed.

Lemma remove_each_restores ks :
  forall N old,
    Permutation N ks -> remove_each ks (old ++ N) = old.
Proof.
  induction ks as [|k ks IH]; intros N old HP.
  - apply Permutation_sym, Permutation_nil in HP. subst N. simpl.
    apply app_nil_r.
  - assert (Hin : In k N).
    { eapply Permutation_in;
        [apply Permutation_sym; exact HP|]. left. reflexivity. }
    destruct (remove_last_in k old N Hin) as (N' & E & HP').
    unfold remove_each. simpl. rewrite E. apply IH.
    eapply Permutation_cons_inv.
    eapply perm_trans;
      [apply Permutation_sym; exact HP'|exact HP].
Qed.

(** Adapter registrations through a collector that was empty, then a flush:
    everything that is true afterwards. *)
Lemma registrations_then_flush P n this rs w :
  Forall is_adapter_registration rs ->
  arrays (mem w) (subs_list (mem w) this) = [] ->
  exists fs w1 w2,
    perform_all P this rs w = Done (Return fs) w1 /\
    Forall is_adapter_closure fs /\
    map fid fs = seq (next_fn (mem w)) (List.length rs) /\
    arrays (mem w1) (subs_list (mem w1) this) = fs /\
    Subs.unsubAll (call P n) this w1 = Done (Return tt) w2 /\
    trace w2 = trace w ++ quiet_calls fs /\
    arrays (mem w2) (subs_list (mem w2) this) = [] /\
    (forall e, emitters (mem w2) e = emitters (mem w) e) /\
    (forall d, targets (mem w2) d
               = without_keys (detached_keys d fs) (targets (mem w) d)) /\
    (Forall (fun t => tid t < next_timer (mem w)) (timers (mem w)) ->
     timers (mem w2) = timers (mem w)).
Proof.
  intros Hrs Hempty.
  destruct (perform_all_adapters P this rs Hrs w)
    as (fs & w1 & Hrun & Hfs & Hids & Hs & Ha & Ht & Hnt
        & (ts & Htm & Hh & Hts) & Hem & Htg).
  rewrite Hempty in Ha. simpl in Ha.
  assert (Ha1 : arrays (mem w1) (subs_list (mem w1) this) = fs)
    by (rewrite Hs; exact Ha).
  destruct (Subs_unsubAll_adapters_effects P n this w1)
    as (w2 & Hflush & Ht2 & He2 & _ & _ & _ & Htm2 & Htg2 & Hem2).
  { rewrite Ha1. exact Hfs. }
  rewrite Ha1 in *.
  exists fs, w1, w2. repeat (split; [assumption|]).
  split; [congruence|]. split; [exact He2|].
  split.
  { intros e. rewrite Hem2, Hem. apply remove_each_restores.
    apply Permutation_refl. }
  split.
  { intros d. rewrite Htg2. destruct (Htg d) as (N & -> & HN).
    unfold without_keys at 1. rewrite filter_app.
    fold (without_keys (detached_keys d fs) N).
    rewrite (without_keys_all_matched _ _ HN). apply app_nil_r. }
  intros Hold. rewrite Htm2, Htm. unfold without_handles at 1.
  rewrite filter_app.
  fold (without_handles (cleared_handles fs) ts).
  fold (without_handles (cleared_handles fs) (timers (mem w))).
  rewrite (without_handles_own _ ts) by (rewrite Hh; apply incl_refl).
  rewrite app_nil_r. apply (without_handles_older (next_timer (mem w))).
  - rewrite <- Hh. clear -Hts. induction Hts; simpl; constructor; auto.
  - exact Hold.
Qed.

(** Every adapter registration made through a collector returns a function
    object of its own: the functions returned by a sequence of such calls
    are closures made by the adapters, pairwise different, and none of them
    is a function object that existed before the first call. *)
Theorem adapter_registrations_return_new_functions (P : Callers) (this : nat)
    (rs : list Registration) (w : World) :
  Forall is_adapter_registration rs ->
  exists fs w1,
    perform_all P this rs w = Done (Return fs) w1 /\
    Forall is_adapter_closure fs /\
    NoDup fs /\
    Forall (fun f => next_fn (mem w) <= fid f) fs.
Proof.
  intros Hrs.
  destruct (perform_all_adapters P this rs Hrs w)
    as (fs & w1 & Hrun & Hfs & Hids & _).
  exists fs, w1. split; [exact Hrun|]. split; [exact Hfs|]. split.
  - apply (NoDup_map_inv fid). rewrite Hids. apply seq_NoDup.
  - apply Forall_forall. intros f Hf.
    assert (Hin : In (fid f) (map fid fs)) by (apply in_map; exact Hf).
    rewrite Hids in Hin. apply in_seq in Hin. lia.
Qed.

Lemma adapter_registrations_return_new_functions_witness :
  exists fs w1,
    perform_all Demo.P 0
      [RSubscribeEvent 1 "data" 5; RSubscribeEvent 1 "data" 5;
       RSubscribeDOMEvent 2 "click" 6; RSetTimeout 7 (Some 50%Z) []]
      Demo.w0 = Done (Return fs) w1 /\
    Forall is_adapter_closure fs /\
    NoDup fs /\
    Forall (fun f => 0 <= fid f) fs.
Proof.
  apply (adapter_registrations_return_new_functions Demo.P 0
           [RSubscribeEvent 1 "data" 5; RSubscribeEvent 1 "data" 5;
            RSubscribeDOMEvent 2 "click" 6; RSetTimeout 7 (Some 50%Z) []]
           Demo.w0).
  repeat constructor.
Defined.

(** Event subscriptions made through an empty collector, among any other
    adapter registrations, and then a flush: the flush returns, calls each
    returned function once in call order with nothing raised or logged, and
    every emitter has exactly the listeners it had before the collector was
    used, in the same order, duplicates included. *)
Theorem flush_restores_emitters (P : Callers) (n : nat) (this : nat)
    (rs : list Registration) (w : World) :
  Forall is_adapter_registration rs ->
  arrays (mem w) (subs_list (mem w) this) = [] ->
  exists fs w1 w2,
    perform_all P this rs w = Done (Return fs) w1 /\
    Subs.unsubAll (call P n) this w1 = Done (Return tt) w2 /\
    trace w2 = trace w ++ quiet_calls fs /\
    (forall e, emitters (mem w1) e = emitters (mem w) e ++ removed_keys e fs) /\
    (forall e, emitters (mem w2) e = emitters (mem w) e).
Proof.
  intros Hrs Hempty.
  destruct (registrations_then_flush P n this rs w Hrs Hempty)
    as (fs & w1 & w2 & Hrun & _ & _ & _ & Hflush & Ht & _ & Hem & _).
  destruct (perform_all_adapters P this rs Hrs w)
    as (fs' & w1' & Hrun' & _ & _ & _ & _ & _ & _ & _ & Hem1 & _).
  rewrite Hrun in Hrun'. inversion Hrun'; subst fs' w1'.
  exists fs, w1, w2. auto.
Qed.

Lemma flush_restores_emitters_witness :
  exists fs w1 w2,
    perform_all Demo.P 0
      [RSubscribeEvent 1 "data" 5; RSetTimeout 7 None [];
       RSubscribeEvent 1 "end" 6; RSubscribeEvent 1 "data" 5]
      (mkWorld (set_emitter 1 [("data", 5)] Demo.m0) [])
      = Done (Return fs) w1 /\
    Subs.unsubAll (call Demo.P 0) 0 w1 = Done (Return tt) w2 /\
    trace w2 = [] ++ quiet_calls fs /\
    emitters (mem w1) 1
      = [("data", 5)] ++ [("data", 5); ("end", 6); ("data", 5)] /\
    emitters (mem w2) 1 = [("data", 5)].
Proof.
  destruct (flush_restores_emitters Demo.P 0 0
              [RSubscribeEvent 1 "data" 5; RSetTimeout 7 None [];
               RSubscribeEvent 1 "end" 6; RSubscribeEvent 1 "data" 5]
              (mkWorld (set_emitter 1 [("data", 5)] Demo.m0) []))
    as (fs & w1 & w2 & H1 & H2 & H3 & H4 & H5).
  - repeat constructor.
  - reflexivity.
  - exists fs, w1, w2. split; [exact H1|]. split; [exact H2|].
    split; [exact H3|]. split; [|exact (H5 1)].
    rewrite (H4 1). cbv in H1. inversion H1; subst fs. reflexivity.
Defined.

(** DOM subscriptions made through an empty collector, among any other
    adapter registrations, and then a flush: every target ends with the
    listeners it had before, minus those that match, in type, callback and
    capture flag, a listener the collector subscribed.  So a target none of
    whose listeners matched is exactly as before, and a listener that was
    attached the same way before the collector subscribed it is detached by
    the flush. *)
Theorem flush_restores_targets (P : Callers) (n : nat) (this : nat)
    (rs : list Registration) (w : World) :
  Forall is_adapter_registration rs ->
  arrays (mem w) (subs_list (mem w) this) = [] ->
  exists fs w1 w2,
    perform_all P this rs w = Done (Return fs) w1 /\
    Subs.unsubAll (call P n) this w1 = Done (Return tt) w2 /\
    (forall d, targets (mem w2) d
               = without_keys (detached_keys d fs) (targets (mem w) d)) /\
    (forall d,
       Forall (fun x => existsb (matches_key x) (detached_keys d fs) = false)
              (targets (mem w) d) ->
       targets (mem w2) d = targets (mem w) d).
Proof.
  intros Hrs Hempty.
  destruct (registrations_then_flush P n this rs w Hrs Hempty)
    as (fs & w1 & w2 & Hrun & _ & _ & _ & Hflush & _ & _ & _ & Htg & _).
  exists fs, w1, w2. split; [exact Hrun|]. split; [exact Hflush|].
  split; [exact Htg|]. intros d Hd. rewrite Htg.
  apply without_keys_none_matched. exact Hd.
Qed.

Lemma flush_restores_targets_witness :
  exists fs w1 w2,
    perform_all Demo.P 0
      [RSubscribeDOMEvent 2 "click" 6; RSubscribeDOMEvent 2 "click" 6;
       RSubscribeDOMEvent 2 "keyup" 6]
      (mkWorld (set_target 2 [mkDomListener "click" 6 true false false;
                              mkDomListener "keyup" 6 false false false]
                           Demo.m0) [])
      = Done (Return fs) w1 /\
    Subs.unsubAll (call Demo.P 0) 0 w1 = Done (Return tt) w2 /\
    List.length (targets (mem w1) 2) = 3 /\
    targets (mem w2) 2 = [mkDomListener "click" 6 true false false].
Proof.
  destruct (flush_restores_targets Demo.P 0 0
              [RSubscribeDOMEvent 2 "click" 6; RSubscribeDOMEvent 2 "click" 6;
               RSubscribeDOMEvent 2 "keyup" 6]
              (mkWorld (set_target 2 [mkDomListener "click" 6 true false false;
                                      mkDomListener "keyup" 6 false false false]
                                   Demo.m0) []))
    as (fs & w1 & w2 & H1 & H2 & H3 & _).
  - repeat constructor.
  - reflexivity.
  - exists fs, w1, w2. split; [exact H1|]. split; [exact H2|].
    rewrite (H3 2). cbv in H1. inversion H1; subst fs w1.
    split; reflexivity.
Defined.

(** Timers set through an empty collector, among any other adapter
    registrations, and then a flush, when the pending timers all have
    handles below the host's next handle: the flush cancels every timer the
    collector set and no other, so the pending timers are exactly those
    there were before. *)
Theorem flush_cancels_own_timers (P : Callers) (n : nat) (this : nat)
    (rs : list Registration) (w : World) :
  Forall is_adapter_registration rs ->
  arrays (mem w) (subs_list (mem w) this) = [] ->
  Forall (fun t => tid t < next_timer (mem w)) (timers (mem w)) ->
  exists fs w1 w2 ts,
    perform_all P this rs w = Done (Return fs) w1 /\
    timers (mem w1) = timers (mem w) ++ ts /\
    map tid ts = cleared_handles fs /\
    Subs.unsubAll (call P n) this w1 = Done (Return tt) w2 /\
    timers (mem w2) = timers (mem w).
Proof.
  intros Hrs Hempty Hold.
  destruct (registrations_then_flush P n this rs w Hrs Hempty)
    as (fs & w1 & w2 & Hrun & _ & _ & _ & Hflush & _ & _ & _ & _ & Htm).
  destruct (perform_all_adapters P this rs Hrs w)
    as (fs' & w1' & Hrun' & _ & _ & _ & _ & _ & _ & (ts & Htm1 & Hh & _) & _).
  rewrite Hrun in Hrun'. inversion Hrun'; subst fs' w1'.
  exists fs, w1, w2, ts. repeat split; auto.
Qed.

Lemma flush_cancels_own_timers_witness :
  exists fs w1 w2 ts,
    perform_all Demo.P 0
      [RSetTimeout 7 (Some 50%Z) []; RSubscribeEvent 1 "data" 5;
       RSetInterval 8 None [VNum 1]]
      (mkWorld (set_timers [mkTimer 3 9 10%Z [] true] 4 Demo.m0) [])
      = Done (Return fs) w1 /\
    timers (mem w1) = [mkTimer 3 9 10%Z [] true] ++ ts /\
    map tid ts = cleared_handles fs /\
    Subs.unsubAll (call Demo.P 0) 0 w1 = Done (Return tt) w2 /\
    timers (mem w2) = [mkTimer 3 9 10%Z [] true].
Proof.
  apply (flush_cancels_own_timers Demo.P 0 0
           [RSetTimeout 7 (Some 50%Z) []; RSubscribeEvent 1 "data" 5;
            RSetInterval 8 None [VNum 1]]
           (mkWorld (set_timers [mkTimer 3 9 10%Z [] true] 4 Demo.m0) [])).
  - repeat constructor.
  - reflexivity.
  - repeat constructor.
Defined.

(** ** Construction and shared arrays *)

(** [new Subs()] twice: two different collectors, each with an empty array
    of its own, so that a push onto the first leaves the second empty.
    [new Subs(list)] twice with the same array: two different collectors
    over that one array, which is taken as it is, so that a push onto the
    first shows in the second. *)
Theorem Subs_new_own_or_shared_array (list : nat) (f : Fn) (w : World) :
  (exists a b w2 w3,
     (a <- Subs.new None ;; b <- Subs.new None ;; ret (a, b)) w
       = Done (Return (a, b)) w2 /\
     a <> b /\
     subs_list (mem w2) a <> subs_list (mem w2) b /\
     arrays (mem w2) (subs_list (mem w2) a) = [] /\
     arrays (mem w2) (subs_list (mem w2) b) = [] /\
     Subs.push a f w2 = Done (Return tt) w3 /\
     arrays (mem w3) (subs_list (mem w3) a) = [f] /\
     arrays (mem w3) (subs_list (mem w3) b) = []) /\
  (exists a b w2 w3,
     (a <- Subs.new (Some list) ;; b <- Subs.new (Some list) ;; ret (a, b)) w
       = Done (Return (a, b)) w2 /\
     a <> b /\
     subs_list (mem w2) a = list /\
     subs_list (mem w2) b = list /\
     arrays (mem w2) = arrays (mem w) /\
     Subs.push a f w2 = Done (Return tt) w3 /\
     arrays (mem w3) (subs_list (mem w3) b) = arrays (mem w) list ++ [f]).
Proof.
  split; do 4 eexists; (split; [reflexivity|]); simpl.
  - split; [lia|].
    rewrite upd_same, (upd_other _ _ _ (next_subs (mem w))) by lia.
    rewrite upd_same.
    split; [lia|].
    rewrite upd_same, (upd_other _ _ _ (next_array (mem w))) by lia.
    rewrite upd_same.
    split; [reflexivity|]. split; [reflexivity|]. split; [reflexivity|].
    simpl. rewrite (upd_other _ _ _ (next_subs (mem w))) by lia.
    rewrite !upd_same, (upd_other _ (next_array (mem w))) by lia.
    rewrite upd_same, (upd_other _ _ _ (next_array (mem w))) by lia.
    rewrite upd_same. split; reflexivity.
  - split; [lia|].
    rewrite upd_same, (upd_other _ _ _ (next_subs (mem w))) by lia.
    rewrite upd_same.
    do 3 (split; [reflexivity|]). split; [reflexivity|].
    simpl. rewrite (upd_other _ _ _ (next_subs (mem w))) by lia.
    rewrite !upd_same. reflexivity.
Qed.

(** Two collectors over one array.  A push through one shows in the other.
    And because [Subs.unsubAll] empties the array in place instead of
    replacing it, a flush of one leaves the other empty as well.  The flush
    part is for functions that return, under an invariant [I] of the store
    which keeps the array in place and both [list] fields on it. *)
Theorem shared_array_is_emptied_for_both (P : Callers) (n : nat)
    (I : Mem -> Prop) (a b : nat) (w : World) :
  subs_list (mem w) a = subs_list (mem w) b ->
  (forall f, exists w1,
     Subs.push a f w = Done (Return tt) w1 /\
     arrays (mem w1) (subs_list (mem w1) b)
       = arrays (mem w) (subs_list (mem w) b) ++ [f]) /\
  (I (mem w) ->
   keeps_sequence I (Many (subs_list (mem w) a))
                  (arrays (mem w) (subs_list (mem w) a)) ->
   (forall m, I m -> subs_list m a = subs_list m b) ->
   (forall f, In f (arrays (mem w) (subs_list (mem w) a)) ->
              returns_in I (call P n) f) ->
   exists w' evs,
     Subs.unsubAll (call P n) a w = Done (Return tt) w' /\
     trace w' = trace w ++ evs /\
     isolated (arrays (mem w) (subs_list (mem w) b)) evs /\
     arrays (mem w') (subs_list (mem w') a) = [] /\
     arrays (mem w') (subs_list (mem w') b) = []).
Proof.
  intros Hab. split.
  - intros f. rewrite Subs_push_run. eexists. split; [reflexivity|].
    simpl. rewrite Hab. apply upd_same.
  - intros Hw Hkeep Hfields HA.
    destruct (Subs_unsubAll_settled P n I a w Hw Hkeep HA)
      as (w1 & w' & evs & _ & HI & Hflush & Hmem & _ & Ht & Hi & Hempty).
    exists w', evs. split; [exact Hflush|]. split; [exact Ht|].
    split; [rewrite <- Hab; exact Hi|]. split; [exact Hempty|].
    rewrite Hmem. simpl. rewrite <- (Hfields _ HI). apply upd_same.
Qed.

Lemma shared_array_is_emptied_for_both_witness :
  (forall f, exists w1,
     Subs.push 0 f
       (mkWorld (set_field 1 0 (set_array 0 [Demo.mark 3; Demo.boom] Demo.m0))
                [])
       = Done (Return tt) w1 /\
     arrays (mem w1) (subs_list (mem w1) 1)
       = [Demo.mark 3; Demo.boom] ++ [f]) /\
  (exists w' evs,
     Subs.unsubAll (call Demo.P 0) 0
       (mkWorld (set_field 1 0 (set_array 0 [Demo.mark 3; Demo.boom] Demo.m0))
                [])
       = Done (Return tt) w' /\
     trace w' = [] ++ evs /\
     isolated [Demo.mark 3; Demo.boom] evs /\
     arrays (mem w') (subs_list (mem w') 0) = [] /\
     arrays (mem w') (subs_list (mem w') 1) = []).
Proof.
  destruct (shared_array_is_emptied_for_both Demo.P 0
              (fun m => subs_list m 0 = 0 /\ subs_list m 1 = 0 /\
                        begins_with 0 [Demo.mark 3; Demo.boom] m)
              0 1
              (mkWorld (set_field 1 0
                          (set_array 0 [Demo.mark 3; Demo.boom] Demo.m0)) [])
              eq_refl)
    as [Hpush Hflush].
  split; [exact Hpush|]. apply Hflush.
  - split; [reflexivity|]. split; [reflexivity|]. exists []. reflexivity.
  - intros m (_ & _ & Hm). exact Hm.
  - intros m (H0 & H1 & _). congruence.
  - apply user_list_cases; [repeat constructor|].
    intros id u _. apply user_returns_in. intros m (H0 & H1 & Hm).
    rewrite !demo_subs_list. split; [exact H0|]. split; [exact H1|].
    apply demo_begins_with. exact Hm.
Defined.

(** ** A second flush, and elements removed before their turn *)

Lemma forEach_from_past_end callback arr todo :
  forall k w,
    List.length (arrays (mem w) arr) <= k ->
    forEach_from callback arr k todo w = Done (Return tt) w.
Proof.
  induction todo as [|todo IH]; intros k w Hk; simpl; [reflexivity|].
  destruct (nth_error (arrays (mem w) arr) k) eqn:E.
  - assert (nth_error (arrays (mem w) arr) k <> None) by congruence.
    apply nth_error_Some in H. lia.
  - apply IH. lia.
Qed.

(** Whenever a flush of a collector returns, a flush right after it calls
    nothing and logs nothing: it returns normally and leaves every array,
    every [list] field and the host as they are.  No function is called a
    second time by flushing twice. *)
Theorem second_flush_calls_nothing (P : Callers) (n : nat) (this : nat)
    (w : World) (c : Completion unit) (w' : World) :
  Subs.unsubAll (call P n) this w = Done c w' ->
  exists w'',
    Subs.unsubAll (call P n) this w' = Done (Return tt) w'' /\
    trace w'' = trace w' /\
    (forall l, arrays (mem w'') l = arrays (mem w') l) /\
    subs_list (mem w'') = subs_list (mem w') /\
    timers (mem w'') = timers (mem w') /\
    targets (mem w'') = targets (mem w') /\
    emitters (mem w'') = emitters (mem w') /\
    userdata (mem w'') = userdata (mem w').
Proof.
  rewrite Subs_unsubAll_unfold.
  destruct (Subscribe.unsubAll _ _ w) as [[[]|e] w1|] eqn:Hrun;
    try discriminate;
    [|exfalso; exact (unsubAll_never_raises _ _ _ _ _ Hrun)].
  intros E. inversion E; subst c w'; clear E.
  rewrite Subs_unsubAll_unfold. simpl. unfold forEach. simpl.
  rewrite upd_same. simpl.
  eexists. split; [reflexivity|]. simpl. split; [reflexivity|].
  split; [|repeat split; reflexivity].
  intros l. unfold upd. destruct (Nat.eqb_spec l (subs_list (mem w1) this));
    reflexivity.
Qed.

Lemma second_flush_calls_nothing_witness :
  exists w' w'',
    Subs.unsubAll (call Demo.P 0) 0
      (Demo.with_list [Demo.mark 3; Demo.boom]) = Done (Return tt) w' /\
    Subs.unsubAll (call Demo.P 0) 0 w' = Done (Return tt) w'' /\
    trace w'' = trace w' /\
    userdata (mem w'') = [VNum 3].
Proof.
  eexists.
  destruct (second_flush_calls_nothing Demo.P 0 0
              (Demo.with_list [Demo.mark 3; Demo.boom]) (Return tt) _ eq_refl)
    as (w'' & H1 & H2 & _ & _ & _ & _ & _ & H8).
  exists w''. split; [reflexivity|]. split; [exact H1|]. split; [exact H2|].
  rewrite H8. reflexivity.
Defined.

(** [Subscribe.unsubAll] looks each index up when its turn comes: when the
    call of the first element leaves the array with at most one element,
    the loop ends there, and the elements that were behind it are not
    called. *)
Theorem unsubAll_passes_over_removed_elements (call : Fn -> M unit)
    (arr : nat) (w : World) (f : Fn) (rest : list Fn)
    (c : Completion unit) (w1 : World) :
  arrays (mem w) arr = f :: rest ->
  call f w = Done c w1 ->
  List.length (arrays (mem w1) arr) <= 1 ->
  Subscribe.unsubAll call (Many arr) w = Done (Return tt) (after_guard c w1).
Proof.
  intros Harr Hc Hlen. simpl. unfold forEach. rewrite Harr.
  cbn [List.length forEach_from]. rewrite Harr. cbn [nth_error].
  unfold bind at 1. cbv beta. rewrite (guard_done _ _ _ _ _ Hc).
  apply forEach_from_past_end. rewrite after_guard_mem. exact Hlen.
Qed.

Lemma unsubAll_passes_over_removed_elements_witness :
  exists w1,
    call Clearing.P 0 Clearing.clearer
         (Demo.with_list [Clearing.clearer; Clearing.idle; Clearing.idle])
      = Done (Return tt) w1 /\
    Subscribe.unsubAll (call Clearing.P 0) (Many 0)
      (Demo.with_list [Clearing.clearer; Clearing.idle; Clearing.idle])
      = Done (Return tt) w1 /\
    trace w1 = [Invoked Clearing.clearer [] None].
Proof.
  eexists. split; [reflexivity|]. split; [|reflexivity].
  apply (unsubAll_passes_over_removed_elements (call Clearing.P 0) 0
           (Demo.with_list [Clearing.clearer; Clearing.idle; Clearing.idle])
           Clearing.clearer [Clearing.idle; Clearing.idle] (Return tt)).
  - reflexivity.
  - reflexivity.
  - simpl. lia.
Defined.

(** ** The compiled build against the source *)

(** The registration side of the build in [dist] does what the source
    does: [subscribe] and [subscribeEvent] of both classes and
    [unsubscribeAll] of [Subscribe] are the source's [subscribe],
    [subscribeEvent] and [unsubAll]; [subscribeDOMEvent], which has no
    options at either level, is the source's called without options; and
    the constructor is the source's. *)
Theorem dist_registrations_agree_with_source (P : Callers)
    (call : Fn -> M unit) (this : nat) (s : nat) (target : nat)
    (eventName : string) (listener : nat) (unsubs : Unsubs)
    (given : option nat) (w : World) :
  Dist.Subscribe.subscribe P s w = Subscribe.subscribe P s w /\
  Dist.Subscribe.subscribeEvent target eventName listener w
    = Subscribe.subscribeEvent target eventName listener w /\
  Dist.Subscribe.subscribeDOMEvent target eventName listener w
    = Subscribe.subscribeDOMEvent target eventName listener None w /\
  Dist.Subscribe.unsubscribeAll call unsubs w
    = Subscribe.unsubAll call unsubs w /\
  Dist.Subscriptions.new given w = Subs.new given w /\
  Dist.Subscriptions.subscribe P this s w = Subs.subscribe P this s w /\
  Dist.Subscriptions.subscribeEvent this target eventName listener w
    = Subs.subscribeEvent this target eventName listener w /\
  Dist.Subscriptions.subscribeDOMEvent this target eventName listener w
    = Subs.subscribeDOMEvent this target eventName listener w.
Proof. repeat split; reflexivity. Qed.

(** What [unsubscribeAll] of the build in [dist] does after its loop. *)
Lemma dist_unsubscribeAll_run (P : Callers) (n : nat)
    (this : nat) (w : World) (c : Completion unit) (w1 : World) :
  Dist.Subscribe.unsubscribeAll (call P n) (Many (subs_list (mem w) this)) w
    = Done c w1 ->
  exists w',
    Dist.Subscriptions.unsubscribeAll (call P n) this w = Done (Return tt) w' /\
    trace w' = trace w1 /\
    subs_list (mem w') this = next_array (mem w1) /\
    arrays (mem w') (subs_list (mem w') this) = [] /\
    (forall l, l <> next_array (mem w1) ->
               arrays (mem w') l = arrays (mem w1) l) /\
    (forall b, b <> this -> subs_list (mem w') b = subs_list (mem w1) b).
Proof.
  intros Hrun.
  unfold Dist.Subscriptions.unsubscribeAll, bind, read. cbv beta iota.
  rewrite Hrun. destruct c as [[]|e].
  - eexists. split; [reflexivity|]. simpl. split; [reflexivity|].
    rewrite !upd_same. split; [reflexivity|]. split; [reflexivity|].
    split; intros x Hx; apply upd_other; exact Hx.
  - exfalso.
    exact (unsubAll_never_raises (call P n) (Many (subs_list (mem w) this))
             w e w1 Hrun).
Qed.

(** [unsubscribeAll] of the build in [dist], whenever its loop returns: it
    returns normally with the trace of the loop; the collector's field then
    points to a new, empty array; and every array that existed, the one the
    collector held included, is as the loop left it, as are the fields of
    all other collectors. *)
Theorem dist_unsubscribeAll_replaces_the_array (P : Callers) (n : nat)
    (this : nat) (w : World) (c : Completion unit) (w1 : World) :
  Dist.Subscribe.unsubscribeAll (call P n) (Many (subs_list (mem w) this)) w
    = Done c w1 ->
  exists w',
    Dist.Subscriptions.unsubscribeAll (call P n) this w = Done (Return tt) w' /\
    trace w' = trace w1 /\
    subs_list (mem w') this = next_array (mem w1) /\
    arrays (mem w') (subs_list (mem w') this) = [] /\
    (forall l, l <> next_array (mem w1) ->
               arrays (mem w') l = arrays (mem w1) l) /\
    (forall b, b <> this -> subs_list (mem w') b = subs_list (mem w1) b).
Proof.
  intros Hloop.
  destruct (dist_unsubscribeAll_run P n this w c w1 Hloop) as (w' & Hw').
  exists w'. exact Hw'.
Qed.

Lemma dist_unsubscribeAll_replaces_the_array_witness :
  exists w1 w',
    Dist.Subscribe.unsubscribeAll (call Demo.P 0) (Many 0)
      (Demo.with_list [Demo.mark 3; Demo.boom]) = Done (Return tt) w1 /\
    Dist.Subscriptions.unsubscribeAll (call Demo.P 0) 0
      (Demo.with_list [Demo.mark 3; Demo.boom]) = Done (Return tt) w' /\
    trace w' = trace w1 /\
    subs_list (mem w') 0 = 2 /\
    arrays (mem w') (subs_list (mem w') 0) = [] /\
    arrays (mem w') 0 = [Demo.mark 3; Demo.boom].
Proof.
  eexists.
  destruct (dist_unsubscribeAll_replaces_the_array Demo.P 0 0
              (Demo.with_list [Demo.mark 3; Demo.boom]) (Return tt) _ eq_refl)
    as (w' & H1 & H2 & H3 & H4 & H5 & _).
  exists w'. split; [reflexivity|]. split; [exact H1|]. split; [exact H2|].
  split; [exact H3|]. split; [exact H4|].
  rewrite H5; [reflexivity|]. simpl. lia.
Defined.

(** The two builds on two collectors [a] and [b] over one array, when [a]
    is flushed: both make the same calls and log the same; both leave [a]
    with an empty array; the source leaves [b] empty too, the build in
    [dist] leaves [b] holding every function the array held, and whatever
    was appended meanwhile.  This is for functions that return, under an
    invariant [I] of the store which keeps the array in place, both fields
    on it, and the array among the allocated ones. *)
Theorem builds_differ_on_a_shared_array (P : Callers) (n : nat)
    (I : Mem -> Prop) (a b : nat) (w : World) :
  a <> b ->
  I (mem w) ->
  keeps_sequence I (Many (subs_list (mem w) a))
                 (arrays (mem w) (subs_list (mem w) a)) ->
  (forall m, I m ->
     subs_list m a = subs_list (mem w) a /\
     subs_list m b = subs_list (mem w) a /\
     subs_list (mem w) a < next_array m) ->
  (forall f, In f (arrays (mem w) (subs_list (mem w) a)) ->
             returns_in I (call P n) f) ->
  exists wd ws ext,
    Dist.Subscriptions.unsubscribeAll (call P n) a w = Done (Return tt) wd /\
    Subs.unsubAll (call P n) a w = Done (Return tt) ws /\
    trace wd = trace ws /\
    arrays (mem wd) (subs_list (mem wd) a) = [] /\
    arrays (mem ws) (subs_list (mem ws) a) = [] /\
    arrays (mem ws) (subs_list (mem ws) b) = [] /\
    arrays (mem wd) (subs_list (mem wd) b)
      = arrays (mem w) (subs_list (mem w) a) ++ ext.
Proof.
  intros Hab Hw Hkeep Hfields HA.
  destruct (Subs_unsubAll_settled P n I a w Hw Hkeep HA)
    as (w1 & ws & evs & Hloop & HI & Hflush & Hmem & Ht & _ & _ & Hempty).
  destruct (Hfields _ HI) as (Ha1 & Hb1 & Hlt).
  destruct (Hkeep _ HI) as [ext Hext]. simpl in Hext.
  destruct (dist_unsubscribeAll_run P n a w (Return tt) w1 Hloop)
    as (wd & Hd & Htd & Hfd & Hed & Harr & Hother).
  exists wd, ws, ext. split; [exact Hd|]. split; [exact Hflush|].
  split; [congruence|]. split; [exact Hed|]. split; [exact Hempty|].
  split.
  - rewrite Hmem. simpl. rewrite Hb1, Ha1. apply upd_same.
  - rewrite (Hother b) by (intros E; apply Hab; symmetry; exact E).
    rewrite Hb1, Harr by lia. exact Hext.
Qed.

Lemma builds_differ_on_a_shared_array_witness :
  exists wd ws ext,
    Dist.Subscriptions.unsubscribeAll (call Demo.P 0) 0
      (mkWorld (set_field 1 0 (set_array 0 [Demo.mark 3; Demo.pusher] Demo.m0))
               []) = Done (Return tt) wd /\
    Subs.unsubAll (call Demo.P 0) 0
      (mkWorld (set_field 1 0 (set_array 0 [Demo.mark 3; Demo.pusher] Demo.m0))
               []) = Done (Return tt) ws /\
    trace wd = trace ws /\
    arrays (mem wd) (subs_list (mem wd) 0) = [] /\
    arrays (mem ws) (subs_list (mem ws) 0) = [] /\
    arrays (mem ws) (subs_list (mem ws) 1) = [] /\
    arrays (mem wd) (subs_list (mem wd) 1)
      = [Demo.mark 3; Demo.pusher] ++ ext.
Proof.
  apply (builds_differ_on_a_shared_array Demo.P 0
           (fun m => subs_list m 0 = 0 /\ subs_list m 1 = 0 /\
                     0 < next_array m /\
                     begins_with 0 [Demo.mark 3; Demo.pusher] m)
           0 1
           (mkWorld (set_field 1 0
                       (set_array 0 [Demo.mark 3; Demo.pusher] Demo.m0)) [])).
  - discriminate.
  - split; [reflexivity|]. split; [reflexivity|]. split; [simpl; lia|].
    exists []. reflexivity.
  - intros m (_ & _ & _ & Hm). exact Hm.
  - intros m (H0 & H1 & Hn & _). simpl. auto.
  - apply user_list_cases; [repeat constructor|].
    intros id u _. apply user_returns_in. intros m (H0 & H1 & Hn & Hm).
    rewrite !demo_subs_list. split; [exact H0|]. split; [exact H1|].
    split; [|apply demo_begins_with; exact Hm].
    destruct u as [|[|u]]; exact Hn.
Defined.

(** ** The collector's subscribe *)

(** [Subs.subscribe] always returns and always appends exactly one function,
    the one it returns, to the array its [list] field points to once the
    caller's function has run: the caller's function when that returned one,
    a new no-op when it raised, in which case the raised value is logged.
    What the caller's function itself put into the array comes before it. *)
Theorem Subs_subscribe_always_appends (P : Callers) (this : nat) (s : nat)
    (w : World) :
  exists f w',
    Subs.subscribe P this s w = Done (Return f) w' /\
    let m1 := snd (registrar P s (mem w)) in
    subs_list (mem w') = subs_list m1 /\
    arrays (mem w') (subs_list m1 this) = arrays m1 (subs_list m1 this) ++ [f] /\
    (forall l, l <> subs_list m1 this -> arrays (mem w') l = arrays m1 l) /\
    match fst (registrar P s (mem w)) with
    | Return g => f = g /\ trace w' = trace w
    | Throw e => f = Closure (next_fn m1) CNoop /\
                 trace w' = trace w ++ [Logged e]
    end.
Proof.
  unfold Subs.subscribe, Subscribe.subscribe, bind, try_catch, lift.
  destruct (registrar P s (mem w)) as [[g|e] m1]; simpl;
    do 2 eexists; (split; [reflexivity|]); simpl;
    (split; [reflexivity|]); (split; [apply upd_same|]);
    (split; [intros l Hl; apply upd_other; exact Hl|]);
    split; reflexivity.
Qed.
